(** * Receipt aggregation: scoring, ranking and gap-filling merge

    Shallow embedding of [aggregate_results] from
    [scripts/agents/receipt_analysis_workflow.py] together with the two
    pydantic models it consumes and produces.

    Modelling conventions.
    - Python [float] is IEEE-754 binary64: Rocq's primitive [float], so every
      score below is computed bit for bit as CPython computes it.
    - Python [str] is modelled by [string].  [str.lower] and [str.strip]
      follow the Unicode character database: where the merge calls them, to
      compare item descriptions, they are parameters of the development (the
      class [StrMethods]), so every property of the merge holds for whatever
      the two methods compute.  [Py.lower] and [Py.strip] are the two methods
      on ASCII text; they serve for blob names, file extensions and for the
      receipts that are run as examples.
    - [dict] objects used as maps ([raw_response], [field_sources],
      [source_scores], [_accumulated_results]) are [gmap]s; the [set] of seen
      descriptions is a [gset].
    - A line item is the dict [{description, quantity, price, total_price}];
      it is a record whose [description] is an optional string.
    - The console output and the files written after the merge are not part of
      the model; the wall-clock reading [datetime.now().isoformat()] is an
      explicit argument. *)

From Stdlib Require Import ZArith Floats Uint63 Ascii String List Permutation Sorted Bool Lia.
From stdpp Require Import gmap strings list.

Set Warnings "-inexact-float,-clear-no-such-hyp".
Local Open Scope string_scope.
Local Open Scope list_scope.

(** ** Python primitives *)

Module Py.

(** [int -> float] conversion performed by mixed arithmetic; exact for the
    small counts and priorities that occur here. *)
Definition float_of_int (n : Z) : float := PrimFloat.of_uint63 (Uint63.of_Z n).

(** Built-in [min(a, b)]: keeps [a] unless [b < a]. *)
Definition min (a b : float) : float := if (b <? a)%float then b else a.

(** Truth value of an [Optional[str]]: [None] and [""] are falsy. *)
Definition truthy (o : option string) : bool :=
  match o with
  | Some s => negb (String.eqb s "")
  | None => false
  end.

(** Truth value of a [float]: zero (of either sign) is falsy. *)
Definition truthy_float (x : float) : bool := negb (x =? 0)%float.

(** [x or d] on an [Optional[str]]. *)
Definition or_str (o : option string) (d : string) : string :=
  match o with
  | Some s => if String.eqb s "" then d else s
  | None => d
  end.

(** [x or d] on an [Optional[float]]. *)
Definition or_float (o : option float) (d : float) : float :=
  match o with
  | Some x => if truthy_float x then x else d
  | None => d
  end.

Definition lower_char (c : ascii) : ascii :=
  let n := nat_of_ascii c in
  if (65 <=? n)%nat && (n <=? 90)%nat then ascii_of_nat (n + 32) else c.

(** [str.lower] on ASCII text: only [A]..[Z] have a lower-case form. *)
Fixpoint lower (s : string) : string :=
  match s with
  | EmptyString => EmptyString
  | String c t => String (lower_char c) (lower t)
  end.

(** Whitespace as [str.strip] sees it in the ASCII range:
    TAB, LF, VT, FF, CR, FS, GS, RS, US and SPACE. *)
Definition is_space (c : ascii) : bool :=
  let n := nat_of_ascii c in
  ((9 <=? n)%nat && (n <=? 13)%nat) || ((28 <=? n)%nat && (n <=? 32)%nat).

Fixpoint lstrip (s : string) : string :=
  match s with
  | EmptyString => EmptyString
  | String c t => if is_space c then lstrip t else s
  end.

Fixpoint rstrip (s : string) : string :=
  match s with
  | EmptyString => EmptyString
  | String c t =>
      match rstrip t with
      | EmptyString => if is_space c then EmptyString else String c EmptyString
      | t' => String c t'
      end
  end.

(** [str.strip] on ASCII text. *)
Definition strip (s : string) : string := rstrip (lstrip s).

End Py.

(** ** The [str] methods behind the item key *)

(** [str.lower] and [str.strip] as the interpreter provides them.  CPython
    lower-cases and trims by the Unicode tables, which are not part of the
    program; the merge is modelled over any implementation of the two methods
    and what is proved of it does not depend on the tables. *)
Class StrMethods := {
  str_lower : string -> string;
  str_strip : string -> string
}.

(** The two methods on ASCII text, where the tables reduce to [Py.lower] and
    [Py.strip].  The receipts of the examples are ASCII and run with it. *)
#[export] Instance ascii_methods : StrMethods :=
  {| str_lower := Py.lower; str_strip := Py.strip |}.

(** ** Data model *)

(** One element of [ReceiptExtractionResult.items]. *)
Record Item := {
  description : option string;
  quantity : option float;
  price : option float;
  total_price : option float
}.

(** [class ReceiptExtractionResult(BaseModel)] *)
Record ReceiptExtractionResult := {
  source : string;
  merchant_name : option string;
  transaction_date : option string;
  transaction_time : option string;
  total_amount : option float;
  currency : option string;
  items : list Item;
  raw_response : gmap string string;
  confidence_score : option float;
  blob_name : string
}.

(** One entry of [scored_results]. *)
Record ScoredResult := {
  result : ReceiptExtractionResult;
  score : float;
  completeness : float;
  confidence : float
}.

(** One entry of [item_sources]. *)
Record ItemSource := {
  src_description : option string;
  src_source : string
}.

(** The [metadata] dict of the final record. *)
Record Metadata := {
  processing_timestamp : string;
  md_confidence_score : float;
  md_completeness_score : float;
  md_aggregation_score : float;
  md_best_source : string;
  md_source_scores : gmap string float;
  md_field_sources : gmap string (option string);
  md_item_sources : list ItemSource
}.

(** [class FinalReceiptData(BaseModel)] *)
Record FinalReceiptData := {
  final_merchant_name : string;
  final_transaction_date : string;
  final_transaction_time : option string;
  final_total_amount : float;
  final_currency : string;
  final_items : list Item;
  final_metadata : Metadata;
  final_sources_used : list string;
  final_blob_name : string
}.

(** What one run of the merge reports: either the literal
    ["No valid results to aggregate"] or a final record. *)
Inductive Outcome :=
  | NoValidResults
  | Aggregated (final_data : FinalReceiptData).

(** ** Filtering *)

(** [not isinstance(r.raw_response, dict) or 'error' not in r.raw_response];
    [raw_response] is declared [dict], so only the key test remains. *)
Definition is_valid (r : ReceiptExtractionResult) : bool :=
  negb (bool_decide (is_Some (raw_response r !! "error"))).

Definition valid_results (results : list ReceiptExtractionResult)
  : list ReceiptExtractionResult :=
  List.filter is_valid results.

(** ** Scoring *)

Definition source_priorities : gmap string Z :=
  <["document_intelligence" := 3%Z]>
    (<["mistral" := 2%Z]> (<["direct_extraction" := 1%Z]> ∅)).

(** The pair of running variables [completeness_score], [field_counts]. *)
Record ScoreAcc := {
  completeness_score : float;
  field_counts : Z
}.

(** [if present: completeness_score += w; field_counts += 1] *)
Definition count_field (present : bool) (w : float) (a : ScoreAcc) : ScoreAcc :=
  if present
  then {| completeness_score := (completeness_score a + w)%float;
          field_counts := (field_counts a + 1)%Z |}
  else a.

Definition item_score (r : ReceiptExtractionResult) : float :=
  Py.min (Py.float_of_int (Z.of_nat (List.length (items r))) * 0.5)%float 5.0%float.

Definition nonempty {A} (l : list A) : bool :=
  match l with [] => false | _ :: _ => true end.

(** The six [if] blocks, in program order. *)
Definition tally (r : ReceiptExtractionResult) : ScoreAcc :=
  let a := {| completeness_score := 0.0%float; field_counts := 0%Z |} in
  let a := count_field (Py.truthy (merchant_name r)) 2.0%float a in
  let a := count_field (Py.truthy (transaction_date r)) 2.0%float a in
  let a := count_field (bool_decide (is_Some (total_amount r))) 3.0%float a in
  let a := count_field (Py.truthy (currency r)) 1.0%float a in
  let a := count_field (nonempty (items r)) (item_score r) a in
  let a := count_field (Py.truthy (transaction_time r)) 1.0%float a in
  a.

Definition normalized_completeness (r : ReceiptExtractionResult) : float :=
  let a := tally r in
  if (0 <? field_counts a)%Z
  then (completeness_score a / Py.float_of_int (field_counts a))%float
  else 0.0%float.

Definition confidence_of (r : ReceiptExtractionResult) : float :=
  match confidence_score r with
  | Some c => c
  | None => 0.5%float
  end.

(** [source_priorities.get(result.source, 0) * 0.01] *)
Definition source_priority (r : ReceiptExtractionResult) : float :=
  (Py.float_of_int (default 0%Z (source_priorities !! source r)) * 0.01)%float.

Definition final_score (r : ReceiptExtractionResult) : float :=
  let s := ((normalized_completeness r * 0.7) + (confidence_of r * 0.3))%float in
  (s + source_priority r)%float.

Definition score_result (r : ReceiptExtractionResult) : ScoredResult :=
  {| result := r;
     score := final_score r;
     completeness := normalized_completeness r;
     confidence := confidence_of r |}.

(** ** Ranking *)

(** [scored_results.sort(key=lambda x: x["score"], reverse=True)].
    [list.sort] is stable, also with [reverse=True]: entries with equal keys
    keep their relative order.  On keys that [<] orders totally (no NaN) every
    stable sort returns the same list; it is written here as an insertion
    sort that moves an entry only past strictly greater scores.  With a NaN
    among the keys the list [list.sort] returns depends on how it merges its
    runs and need not keep equal keys in order; the model does not follow it
    there, and what is proved of the order of the ranking is proved for
    scores without NaN. *)
Fixpoint insert_desc (x : ScoredResult) (l : list ScoredResult) : list ScoredResult :=
  match l with
  | [] => [x]
  | y :: l' => if (score x <? score y)%float then y :: insert_desc x l' else x :: l
  end.

Definition sort_desc (l : list ScoredResult) : list ScoredResult :=
  List.fold_right insert_desc [] l.

Definition scored_results (valid : list ReceiptExtractionResult) : list ScoredResult :=
  sort_desc (List.map score_result valid).

(** The valid results in rank order. *)
Definition ranked (valid : list ReceiptExtractionResult) : list ReceiptExtractionResult :=
  List.map result (scored_results valid).

(** ** Merging *)

(** The scalar variables of the merge and the [field_sources] dict. *)
Record FieldVars := {
  v_merchant_name : option string;
  v_transaction_date : option string;
  v_transaction_time : option string;
  v_total_amount : option float;
  v_currency : option string;
  field_sources : gmap string (option string)
}.

(** [all_items], [seen_item_descriptions] and [item_sources]. *)
Record ItemVars := {
  all_items : list Item;
  seen_item_descriptions : gset string;
  item_sources : list ItemSource
}.

(** [best_result.source if value else None] *)
Definition source_if (present : bool) (r : ReceiptExtractionResult) : option string :=
  if present then Some (source r) else None.

(** Seeding of the scalars from [best_result]. *)
Definition seed_fields (best_result : ReceiptExtractionResult) : FieldVars :=
  let fs : gmap string (option string) := ∅ in
  let fs := <["merchant_name" := source_if (Py.truthy (merchant_name best_result)) best_result]> fs in
  let fs := <["transaction_date" := source_if (Py.truthy (transaction_date best_result)) best_result]> fs in
  let fs := <["transaction_time" := source_if (Py.truthy (transaction_time best_result)) best_result]> fs in
  let fs := <["total_amount" := source_if (bool_decide (is_Some (total_amount best_result))) best_result]> fs in
  let fs := <["currency" := source_if (Py.truthy (currency best_result)) best_result]> fs in
  {| v_merchant_name := merchant_name best_result;
     v_transaction_date := transaction_date best_result;
     v_transaction_time := transaction_time best_result;
     v_total_amount := total_amount best_result;
     v_currency := currency best_result;
     field_sources := fs |}.

(** The five [if not <field> and result.<field>] blocks of the loop body,
    one definition per block. *)
Definition fill_merchant_name (r : ReceiptExtractionResult) (v : FieldVars) : FieldVars :=
  if negb (Py.truthy (v_merchant_name v)) && Py.truthy (merchant_name r)
  then {| v_merchant_name := merchant_name r;
          v_transaction_date := v_transaction_date v;
          v_transaction_time := v_transaction_time v;
          v_total_amount := v_total_amount v;
          v_currency := v_currency v;
          field_sources := <["merchant_name" := Some (source r)]> (field_sources v) |}
  else v.

Definition fill_transaction_date (r : ReceiptExtractionResult) (v : FieldVars) : FieldVars :=
  if negb (Py.truthy (v_transaction_date v)) && Py.truthy (transaction_date r)
  then {| v_merchant_name := v_merchant_name v;
          v_transaction_date := transaction_date r;
          v_transaction_time := v_transaction_time v;
          v_total_amount := v_total_amount v;
          v_currency := v_currency v;
          field_sources := <["transaction_date" := Some (source r)]> (field_sources v) |}
  else v.

Definition fill_transaction_time (r : ReceiptExtractionResult) (v : FieldVars) : FieldVars :=
  if negb (Py.truthy (v_transaction_time v)) && Py.truthy (transaction_time r)
  then {| v_merchant_name := v_merchant_name v;
          v_transaction_date := v_transaction_date v;
          v_transaction_time := transaction_time r;
          v_total_amount := v_total_amount v;
          v_currency := v_currency v;
          field_sources := <["transaction_time" := Some (source r)]> (field_sources v) |}
  else v.

Definition fill_total_amount (r : ReceiptExtractionResult) (v : FieldVars) : FieldVars :=
  if negb (bool_decide (is_Some (v_total_amount v)))
     && bool_decide (is_Some (total_amount r))
  then {| v_merchant_name := v_merchant_name v;
          v_transaction_date := v_transaction_date v;
          v_transaction_time := v_transaction_time v;
          v_total_amount := total_amount r;
          v_currency := v_currency v;
          field_sources := <["total_amount" := Some (source r)]> (field_sources v) |}
  else v.

Definition fill_currency (r : ReceiptExtractionResult) (v : FieldVars) : FieldVars :=
  if negb (Py.truthy (v_currency v)) && Py.truthy (currency r)
  then {| v_merchant_name := v_merchant_name v;
          v_transaction_date := v_transaction_date v;
          v_transaction_time := v_transaction_time v;
          v_total_amount := v_total_amount v;
          v_currency := currency r;
          field_sources := <["currency" := Some (source r)]> (field_sources v) |}
  else v.

(** The blocks in program order. *)
Definition fill_gaps (r : ReceiptExtractionResult) (v : FieldVars) : FieldVars :=
  let v := fill_merchant_name r v in
  let v := fill_transaction_date r v in
  let v := fill_transaction_time r v in
  let v := fill_total_amount r v in
  let v := fill_currency r v in
  v.

(** [item["description"].lower().strip()] *)
Definition desc_key {str_methods : StrMethods} (d : string) : string := str_strip (str_lower d).

(** Body of [for item in result.items]. *)
Definition add_item {str_methods : StrMethods} (src : string) (iv : ItemVars) (item : Item) : ItemVars :=
  if Py.truthy (description item)
  then
    let k := desc_key (default "" (description item)) in
    if bool_decide (k ∈ seen_item_descriptions iv)
    then iv
    else {| all_items := all_items iv ++ [item];
            seen_item_descriptions := seen_item_descriptions iv ∪ {[ k ]};
            item_sources := item_sources iv
                              ++ [ {| src_description := description item;
                                      src_source := src |} ] |}
  else iv.

(** [if result.items: for item in result.items: ...] *)
Definition add_items {str_methods : StrMethods} (r : ReceiptExtractionResult) (iv : ItemVars) : ItemVars :=
  if nonempty (items r)
  then List.fold_left (add_item (source r)) (items r) iv
  else iv.

Definition no_items : ItemVars :=
  {| all_items := []; seen_item_descriptions := ∅; item_sources := [] |}.

(** State of the merge while the ranked results are walked. *)
Definition MergeVars : Type := FieldVars * ItemVars.

(** Everything done with [best_result] before the loop. *)
Definition seed {str_methods : StrMethods} (best_result : ReceiptExtractionResult) : MergeVars :=
  (seed_fields best_result, add_items best_result no_items).

(** One iteration of [for scored in scored_results[1:]]. *)
Definition merge_step {str_methods : StrMethods} (m : MergeVars) (r : ReceiptExtractionResult) : MergeVars :=
  (fill_gaps r (fst m), add_items r (snd m)).

Definition walk {str_methods : StrMethods} (m : MergeVars) (rest : list ReceiptExtractionResult) : MergeVars :=
  List.fold_left merge_step rest m.

(** [{r["result"].source: r["score"] for r in scored_results}]:
    a later entry replaces an earlier one with the same source. *)
Definition source_scores (sl : list ScoredResult) : gmap string float :=
  List.fold_left (fun d s => <[source (result s) := score s]> d) sl ∅.

(** [FinalReceiptData(...)] built from the merge variables. *)
Definition finalize (now : string) (valid : list ReceiptExtractionResult)
    (sl : list ScoredResult) (top : ScoredResult) (m : MergeVars) : FinalReceiptData :=
  let v := fst m in
  let iv := snd m in
  {| final_merchant_name := Py.or_str (v_merchant_name v) "Unknown";
     final_transaction_date := Py.or_str (v_transaction_date v) "Unknown";
     final_transaction_time := v_transaction_time v;
     final_total_amount := Py.or_float (v_total_amount v) 0.0%float;
     final_currency := Py.or_str (v_currency v) "USD";
     final_items := all_items iv;
     final_metadata :=
       {| processing_timestamp := now;
          md_confidence_score := confidence top;
          md_completeness_score := completeness top;
          md_aggregation_score := score top;
          md_best_source := source (result top);
          md_source_scores := source_scores sl;
          md_field_sources := field_sources v;
          md_item_sources := item_sources iv |};
     final_sources_used := List.map source valid;
     final_blob_name := match valid with r :: _ => blob_name r | [] => "" end |}.

(** The merge variables after the loop, for a non-empty ranking. *)
Definition merged_vars {str_methods : StrMethods} (rk : list ReceiptExtractionResult) : option MergeVars :=
  match rk with
  | [] => None
  | best_result :: rest => Some (walk (seed best_result) rest)
  end.

(** The part of [aggregate_results] that follows the accumulation: from the
    list held for the blob to the outcome. *)
Definition merge {str_methods : StrMethods} (now : string) (results : list ReceiptExtractionResult) : Outcome :=
  let valid := valid_results results in
  let sl := scored_results valid in
  match sl with
  | [] => NoValidResults
  | top :: rest =>
      Aggregated
        (finalize now valid sl top (walk (seed (result top)) (List.map result rest)))
  end.

(** ** Accumulation *)

(** The module-level dict [_accumulated_results]. *)
Abbreviation Store := (gmap string (list ReceiptExtractionResult)).

(** [if blob not in store: store[blob] = []] then [store[blob].append(result)] *)
Definition accumulate (st : Store) (r : ReceiptExtractionResult) : Store :=
  <[blob_name r := default [] (st !! blob_name r) ++ [r]]> st.

(** [aggregate_results]: append, then merge what is held for that blob. *)
Definition aggregate_results {str_methods : StrMethods} (now : string) (st : Store) (r : ReceiptExtractionResult)
  : Store * Outcome :=
  let st' := accumulate st r in
  (st', merge now (default [] (st' !! blob_name r))).

(** ** The scenario of the specification, run on the model *)

Module Scenario.

Definition latte : Item :=
  {| description := Some "Latte"; quantity := None;
     price := Some 4.5%float; total_price := None |}.

Definition A : ReceiptExtractionResult :=
  {| source := "document_intelligence"; merchant_name := Some "Cafe X";
     transaction_date := None; transaction_time := None; total_amount := None;
     currency := None; items := []; raw_response := ∅;
     confidence_score := Some 0.9%float; blob_name := "r1.jpg" |}.

Definition B : ReceiptExtractionResult :=
  {| source := "mistral"; merchant_name := None;
     transaction_date := None; transaction_time := None;
     total_amount := Some 4.5%float;
     currency := Some "USD"; items := [latte]; raw_response := ∅;
     confidence_score := Some 0.7%float; blob_name := "r1.jpg" |}.

Definition failed : ReceiptExtractionResult :=
  {| source := "direct_extraction"; merchant_name := None;
     transaction_date := None; transaction_time := None; total_amount := None;
     currency := None; items := []; raw_response := {[ "error" := "timeout" ]};
     confidence_score := None; blob_name := "r1.jpg" |}.

End Scenario.

(** * Properties *)

(** ** Comparison of binary64 numbers

    [<] on floats that are not NaN is a strict weak order, and [==] is its
    equivalence.  The facts are read off the IEEE specification of the
    primitive comparisons. *)

Module FloatOrder.

Ltac cmp_cases :=
  repeat match goal with
    | |- context [Pos.compare_cont Eq ?a ?b] =>
        change (Pos.compare_cont Eq a b) with (Pos.compare a b)
    | H : context [Pos.compare_cont Eq ?a ?b] |- _ =>
        change (Pos.compare_cont Eq a b) with (Pos.compare a b) in H
    end;
  repeat match goal with
    | |- context [Z.compare ?a ?b] => destruct (Z.compare_spec a b)
    | H : context [Z.compare ?a ?b] |- _ => destruct (Z.compare_spec a b)
    | |- context [Pos.compare ?a ?b] => destruct (Pos.compare_spec a b)
    | H : context [Pos.compare ?a ?b] |- _ => destruct (Pos.compare_spec a b)
    end;
  simpl in *; subst; try congruence; try lia.

Ltac sf_cases x := destruct x as [[]|[]| |[] ? ?].

Lemma SFcompare_antisym x y :
  SFcompare y x = option_map CompOpp (SFcompare x y).
Proof. sf_cases x; sf_cases y; simpl; try reflexivity; cmp_cases. Qed.

Lemma SFltb_irrefl x : SFltb x x = false.
Proof. unfold SFltb. sf_cases x; simpl; try reflexivity; cmp_cases. Qed.

Lemma SFltb_trans x y z :
  SFltb x y = true -> SFltb y z = true -> SFltb x z = true.
Proof.
  unfold SFltb. sf_cases x; sf_cases y; sf_cases z;
    simpl; try congruence; try reflexivity; intros; cmp_cases.
Qed.

Lemma SFltb_negtrans x y z :
  y <> S754_nan ->
  SFltb x y = false -> SFltb y z = false -> SFltb x z = false.
Proof.
  unfold SFltb. sf_cases x; sf_cases y; sf_cases z;
    simpl; try congruence; try reflexivity; intros; cmp_cases.
Qed.

Lemma SFeqb_ltb x y :
  x <> S754_nan -> y <> S754_nan ->
  SFeqb x y = negb (SFltb x y) && negb (SFltb y x).
Proof.
  unfold SFeqb, SFltb. rewrite (SFcompare_antisym x y).
  sf_cases x; sf_cases y; simpl; try congruence; try reflexivity; intros; cmp_cases.
Qed.

Lemma SFeqb_nan_l x : SFeqb S754_nan x = false.
Proof. reflexivity. Qed.

Lemma SFeqb_nan_r x : SFeqb x S754_nan = false.
Proof. unfold SFeqb. sf_cases x; reflexivity. Qed.

Lemma not_nan x : is_nan x = false <-> Prim2SF x <> S754_nan.
Proof.
  unfold is_nan. rewrite FloatAxioms.eqb_spec. split.
  - intros H E. rewrite E in H. discriminate.
  - intros H. rewrite SFeqb_ltb, SFltb_irrefl by assumption. reflexivity.
Qed.

Lemma ltb_irrefl x : (x <? x)%float = false.
Proof. rewrite FloatAxioms.ltb_spec. apply SFltb_irrefl. Qed.

Lemma ltb_trans x y z :
  (x <? y)%float = true -> (y <? z)%float = true -> (x <? z)%float = true.
Proof. rewrite !FloatAxioms.ltb_spec. apply SFltb_trans. Qed.

Lemma ltb_asym x y : (x <? y)%float = true -> (y <? x)%float = false.
Proof.
  intros H. destruct (y <? x)%float eqn:E; [|reflexivity].
  pose proof (ltb_trans _ _ _ H E) as F. rewrite ltb_irrefl in F. discriminate.
Qed.

Lemma ltb_negtrans x y z :
  is_nan y = false ->
  (x <? y)%float = false -> (y <? z)%float = false -> (x <? z)%float = false.
Proof. intros N. apply not_nan in N. rewrite !FloatAxioms.ltb_spec. now apply SFltb_negtrans. Qed.

Lemma eqb_ltb x y :
  is_nan x = false -> is_nan y = false ->
  (x =? y)%float = negb (x <? y)%float && negb (y <? x)%float.
Proof.
  intros Nx Ny. apply not_nan in Nx, Ny.
  rewrite !FloatAxioms.ltb_spec, FloatAxioms.eqb_spec. now apply SFeqb_ltb.
Qed.

Lemma eqb_refl x : is_nan x = false -> (x =? x)%float = true.
Proof. unfold is_nan. destruct (x =? x)%float; [reflexivity | discriminate]. Qed.

Lemma eqb_not_nan_l x y : (x =? y)%float = true -> is_nan x = false.
Proof.
  intros H. apply not_nan. intros E.
  rewrite FloatAxioms.eqb_spec, E, SFeqb_nan_l in H. discriminate.
Qed.

Lemma eqb_not_nan_r x y : (x =? y)%float = true -> is_nan y = false.
Proof.
  intros H. apply not_nan. intros E.
  rewrite FloatAxioms.eqb_spec, E, SFeqb_nan_r in H. discriminate.
Qed.


(** Two numbers equal to a third are not strictly ordered. *)
Lemma eqb_eqb_not_ltb x y k :
  (x =? k)%float = true -> (y =? k)%float = true -> (x <? y)%float = false.
Proof.
  intros Hx Hy.
  pose proof (eqb_not_nan_l _ _ Hx) as Nx. pose proof (eqb_not_nan_l _ _ Hy) as Ny.
  pose proof (eqb_not_nan_r _ _ Hx) as Nk.
  rewrite eqb_ltb in Hx, Hy by assumption.
  apply andb_true_iff in Hx as [Hx1 Hx2]. apply andb_true_iff in Hy as [Hy1 Hy2].
  apply negb_true_iff in Hx1, Hx2, Hy1, Hy2.
  exact (ltb_negtrans _ _ _ Nk Hx1 Hy2).
Qed.


End FloatOrder.

(** ** The ranking is a stable descending sort *)

Section Ranking.

Implicit Types (x y : ScoredResult) (l : list ScoredResult) (k : float).

Definition ge_score x y : Prop := (score x <? score y)%float = false.

Definition descending l : Prop := StronglySorted ge_score l.

Definition no_nan l : Prop := Forall (fun x => is_nan (score x) = false) l.

(** The entries of [l] whose score compares equal to [k], in list order. *)
Definition tied k l : list ScoredResult :=
  List.filter (fun x => (score x =? k)%float) l.

Lemma insert_desc_perm x l : Permutation (insert_desc x l) (x :: l).
Proof.
  induction l as [|y l IH]; simpl; [reflexivity|].
  destruct (score x <? score y)%float; [|reflexivity].
  rewrite IH. apply perm_swap.
Qed.

Lemma sort_desc_perm l : Permutation (sort_desc l) l.
Proof.
  induction l as [|x l IH]; simpl; [reflexivity|].
  rewrite insert_desc_perm. now constructor.
Qed.

Lemma sort_desc_nil l : sort_desc l = [] -> l = [].
Proof.
  intros H. apply Permutation_nil. rewrite <- H. apply sort_desc_perm.
Qed.

Lemma no_nan_perm l l' : Permutation l l' -> no_nan l -> no_nan l'.
Proof. unfold no_nan. intros P. now rewrite P. Qed.

Lemma insert_desc_descending x l :
  no_nan (x :: l) -> descending l -> descending (insert_desc x l).
Proof.
  unfold no_nan, descending.
  induction l as [|y l IH]; simpl; intros N S.
  - repeat constructor.
  - apply Forall_cons_iff in N as [Nx N]. apply Forall_cons_iff in N as [Ny N].
    apply StronglySorted_inv in S as [S Hy].
    destruct (score x <? score y)%float eqn:E.
    + constructor.
      * apply IH; [now constructor | assumption].
      * rewrite insert_desc_perm. constructor; [|assumption].
        now apply FloatOrder.ltb_asym.
    + constructor; [now constructor|].
      constructor; [exact E|].
      rewrite List.Forall_forall in Hy |- *. intros z Hz.
      exact (FloatOrder.ltb_negtrans _ _ _ Ny E (Hy z Hz)).
Qed.

Lemma sort_desc_descending l : no_nan l -> descending (sort_desc l).
Proof.
  induction l as [|x l IH]; simpl; intros N; [constructor|].
  pose proof N as N'. apply Forall_cons_iff in N' as [Nx Nl].
  apply insert_desc_descending; [|auto].
  constructor; [assumption|].
  eapply no_nan_perm; [symmetry; apply sort_desc_perm | assumption].
Qed.

(** Stability: insertion never reorders entries of equal score. *)
Lemma tied_insert_desc k x l : tied k (insert_desc x l) = tied k (x :: l).
Proof.
  induction l as [|y l IH]; [reflexivity|].
  simpl. destruct (score x <? score y)%float eqn:E; [|reflexivity].
  simpl. fold (tied k (insert_desc x l)). rewrite IH. simpl.
  destruct (score y =? k)%float eqn:Ey, (score x =? k)%float eqn:Ex; try reflexivity.
  rewrite (FloatOrder.eqb_eqb_not_ltb _ _ _ Ex Ey) in E. discriminate.
Qed.

Lemma tied_sort_desc k l : tied k (sort_desc l) = tied k l.
Proof.
  induction l as [|x l IH]; [reflexivity|].
  simpl sort_desc. rewrite tied_insert_desc. simpl. fold (tied k (sort_desc l)).
  fold (tied k l). now rewrite IH.
Qed.

Lemma tied_head x l : is_nan (score x) = false -> tied (score x) (x :: l) = x :: tied (score x) l.
Proof. intros N. simpl. now rewrite FloatOrder.eqb_refl. Qed.

Lemma tied_In k x l : In x (tied k l) -> In x l.
Proof. unfold tied. rewrite List.filter_In. tauto. Qed.

(** A descending list is determined by its groups of equal score. *)
Lemma descending_unique l1 : forall l2,
  no_nan l1 -> no_nan l2 -> descending l1 -> descending l2 ->
  (forall k, tied k l1 = tied k l2) -> l1 = l2.
Proof.
  induction l1 as [|a l1 IH]; intros l2 N1 N2 S1 S2 T.
  - destruct l2 as [|b l2]; [reflexivity|].
    apply Forall_cons_iff in N2 as [Nb _].
    specialize (T (score b)). rewrite tied_head in T by assumption. discriminate.
  - pose proof N1 as N1'. apply Forall_cons_iff in N1' as [Na N1'].
    destruct l2 as [|b l2].
    { specialize (T (score a)). rewrite tied_head in T by assumption. discriminate. }
    pose proof N2 as N2'. apply Forall_cons_iff in N2' as [Nb N2'].
    apply StronglySorted_inv in S1 as [S1 Ha]. apply StronglySorted_inv in S2 as [S2 Hb].
    rewrite List.Forall_forall in Ha, Hb.
    assert (Hba : (score b <? score a)%float = false).
    { pose proof (T (score a)) as Ta. rewrite tied_head in Ta by assumption.
      assert (I : In a (tied (score a) (b :: l2))) by (rewrite <- Ta; now left).
      apply tied_In in I as [->|I]; [apply FloatOrder.ltb_irrefl | now apply Hb]. }
    assert (Hab : (score a <? score b)%float = false).
    { pose proof (T (score b)) as Tb. rewrite (tied_head b) in Tb by assumption.
      assert (I : In b (tied (score b) (a :: l1))) by (rewrite Tb; now left).
      apply tied_In in I as [->|I]; [apply FloatOrder.ltb_irrefl | now apply Ha]. }
    assert (Eab : (score b =? score a)%float = true).
    { rewrite FloatOrder.eqb_ltb by assumption. now rewrite Hab, Hba. }
    assert (a = b) as <-.
    { pose proof (T (score a)) as Ta. rewrite tied_head in Ta by assumption.
      simpl in Ta. rewrite Eab in Ta. congruence. }
    f_equal. apply IH; try assumption.
    intros k. specialize (T k). simpl in T.
    destruct (score a =? k)%float; congruence.
Qed.


End Ranking.

(** ** The scalar fields, observed uniformly *)

Inductive ScalarField :=
  | MerchantName | TransactionDate | TransactionTime | TotalAmount | Currency.

(** A scalar as the code holds it: an optional string or an optional number. *)
Inductive Value :=
  | VStr (s : option string)
  | VNum (x : option float).

(** The key of the field in [field_sources]. *)
Definition field_key (f : ScalarField) : string :=
  match f with
  | MerchantName => "merchant_name"
  | TransactionDate => "transaction_date"
  | TransactionTime => "transaction_time"
  | TotalAmount => "total_amount"
  | Currency => "currency"
  end.

Definition value_of (f : ScalarField) (r : ReceiptExtractionResult) : Value :=
  match f with
  | MerchantName => VStr (merchant_name r)
  | TransactionDate => VStr (transaction_date r)
  | TransactionTime => VStr (transaction_time r)
  | TotalAmount => VNum (total_amount r)
  | Currency => VStr (currency r)
  end.

Definition var_of (f : ScalarField) (v : FieldVars) : Value :=
  match f with
  | MerchantName => VStr (v_merchant_name v)
  | TransactionDate => VStr (v_transaction_date v)
  | TransactionTime => VStr (v_transaction_time v)
  | TotalAmount => VNum (v_total_amount v)
  | Currency => VStr (v_currency v)
  end.

(** The test the code applies before it keeps or adopts a value:
    truthiness for strings, [is not None] for the amount. *)
Definition is_set (x : Value) : bool :=
  match x with
  | VStr s => Py.truthy s
  | VNum x => bool_decide (is_Some x)
  end.

Definition supplies (f : ScalarField) (r : ReceiptExtractionResult) : bool :=
  is_set (value_of f r).

(** The field as it appears in the final record. *)
Definition final_value (f : ScalarField) (d : FinalReceiptData) : Value :=
  match f with
  | MerchantName => VStr (Some (final_merchant_name d))
  | TransactionDate => VStr (Some (final_transaction_date d))
  | TransactionTime => VStr (final_transaction_time d)
  | TotalAmount => VNum (Some (final_total_amount d))
  | Currency => VStr (Some (final_currency d))
  end.

(** The [or "Unknown"], [or 0.0], [or "USD"] of the final record. *)
Definition with_default (f : ScalarField) (x : Value) : Value :=
  match f, x with
  | MerchantName, VStr s => VStr (Some (Py.or_str s "Unknown"))
  | TransactionDate, VStr s => VStr (Some (Py.or_str s "Unknown"))
  | TotalAmount, VNum a => VNum (Some (Py.or_float a 0.0%float))
  | Currency, VStr s => VStr (Some (Py.or_str s "USD"))
  | _, _ => x
  end.

Definition walk_fields (v : FieldVars) (rest : list ReceiptExtractionResult) : FieldVars :=
  List.fold_left (fun v r => fill_gaps r v) rest v.

Definition walk_items {str_methods : StrMethods} (iv : ItemVars) (rest : list ReceiptExtractionResult) : ItemVars :=
  List.fold_left (fun iv r => add_items r iv) rest iv.

Section Fields.

Context {str_methods : StrMethods}.

Implicit Types (f : ScalarField) (r : ReceiptExtractionResult) (v : FieldVars).

Lemma walk_split (m : MergeVars) rest :
  walk m rest = (walk_fields (fst m) rest, walk_items (snd m) rest).
Proof.
  unfold walk, walk_fields, walk_items.
  revert m. induction rest as [|r rest IH]; intros [v iv]; [reflexivity|].
  simpl. now rewrite IH.
Qed.

(** The block of the loop body that handles field [g]. *)
Definition fill_block (g : ScalarField) : ReceiptExtractionResult -> FieldVars -> FieldVars :=
  match g with
  | MerchantName => fill_merchant_name
  | TransactionDate => fill_transaction_date
  | TransactionTime => fill_transaction_time
  | TotalAmount => fill_total_amount
  | Currency => fill_currency
  end.

Lemma fill_gaps_blocks r v :
  fill_gaps r v
  = fill_block Currency r
      (fill_block TotalAmount r
         (fill_block TransactionTime r
            (fill_block TransactionDate r (fill_block MerchantName r v)))).
Proof. reflexivity. Qed.

Ltac block_cases :=
  simpl;
  unfold fill_merchant_name, fill_transaction_date, fill_transaction_time,
    fill_total_amount, fill_currency, supplies; simpl;
  repeat match goal with
    | |- context [if ?b then _ else _] => destruct b eqn:?; simpl in *
    end.

Lemma fill_block_var_same g r v :
  var_of g (fill_block g r v)
  = if negb (is_set (var_of g v)) && supplies g r then value_of g r else var_of g v.
Proof. destruct g; block_cases; congruence. Qed.

Lemma fill_block_var_other g f r v :
  f <> g -> var_of f (fill_block g r v) = var_of f v.
Proof. intros H. destruct g, f; block_cases; congruence. Qed.

Lemma fill_block_source_same g r v :
  field_sources (fill_block g r v) !! field_key g
  = if negb (is_set (var_of g v)) && supplies g r
    then Some (Some (source r))
    else field_sources v !! field_key g.
Proof. destruct g; block_cases; simplify_map_eq; congruence. Qed.

Lemma fill_block_source_other g r v (key : string) :
  key <> field_key g ->
  field_sources (fill_block g r v) !! key = field_sources v !! key.
Proof. intros H. destruct g; block_cases; simplify_map_eq; congruence. Qed.

Lemma field_key_inj f g : field_key f = field_key g -> f = g.
Proof. destruct f, g; simpl; congruence. Qed.

Lemma fill_gaps_var f r v :
  var_of f (fill_gaps r v)
  = if negb (is_set (var_of f v)) && supplies f r then value_of f r else var_of f v.
Proof.
  rewrite fill_gaps_blocks.
  destruct f;
    repeat first
      [ rewrite fill_block_var_other by discriminate
      | rewrite fill_block_var_same ];
    reflexivity.
Qed.

Lemma fill_gaps_source f r v :
  field_sources (fill_gaps r v) !! field_key f
  = if negb (is_set (var_of f v)) && supplies f r
    then Some (Some (source r))
    else field_sources v !! field_key f.
Proof.
  rewrite fill_gaps_blocks.
  destruct f;
    repeat first
      [ rewrite fill_block_source_other by discriminate
      | rewrite fill_block_var_other by discriminate
      | rewrite fill_block_source_same ];
    reflexivity.
Qed.

(** Keys other than the five field names are never written. *)
Lemma fill_gaps_other_key r v (key : string) :
  (forall f, field_key f <> key) ->
  field_sources (fill_gaps r v) !! key = field_sources v !! key.
Proof.
  intros H. rewrite fill_gaps_blocks.
  rewrite !fill_block_source_other by (intros E; exact (H _ (eq_sym E))).
  reflexivity.
Qed.

Lemma seed_var f r : var_of f (seed_fields r) = value_of f r.
Proof. destruct f; reflexivity. Qed.

Lemma seed_source f r :
  field_sources (seed_fields r) !! field_key f = Some (source_if (supplies f r) r).
Proof. destruct f; reflexivity. Qed.

Lemma seed_other_key r (key : string) :
  (forall f, field_key f <> key) -> field_sources (seed_fields r) !! key = None.
Proof.
  intros H.
  pose proof (H MerchantName). pose proof (H TransactionDate).
  pose proof (H TransactionTime). pose proof (H TotalAmount). pose proof (H Currency).
  unfold seed_fields; simpl in *. now simplify_map_eq.
Qed.

(** A field that is set survives any further walk, value and attribution. *)
Lemma walk_fields_kept f rest : forall v,
  is_set (var_of f v) = true ->
  var_of f (walk_fields v rest) = var_of f v
  /\ field_sources (walk_fields v rest) !! field_key f = field_sources v !! field_key f.
Proof.
  induction rest as [|r rest IH]; intros v Hset; [easy|].
  simpl.
  assert (E : var_of f (fill_gaps r v) = var_of f v)
    by (rewrite fill_gaps_var, Hset; reflexivity).
  destruct (IH (fill_gaps r v)) as [Hv Hs]; [now rewrite E|].
  unfold walk_fields in *. rewrite Hv, Hs, E. split; [reflexivity|].
  now rewrite fill_gaps_source, Hset.
Qed.

(** A field that is not set takes the first supplied value, if any. *)
Lemma walk_fields_gap f rest : forall v,
  is_set (var_of f v) = false ->
  match List.find (supplies f) rest with
  | Some r =>
      var_of f (walk_fields v rest) = value_of f r
      /\ field_sources (walk_fields v rest) !! field_key f = Some (Some (source r))
  | None =>
      var_of f (walk_fields v rest) = var_of f v
      /\ field_sources (walk_fields v rest) !! field_key f = field_sources v !! field_key f
  end.
Proof.
  induction rest as [|r rest IH]; intros v Hun; [easy|].
  simpl. destruct (supplies f r) eqn:Hr.
  - assert (E : var_of f (fill_gaps r v) = value_of f r)
      by (rewrite fill_gaps_var, Hun, Hr; reflexivity).
    destruct (walk_fields_kept f rest (fill_gaps r v)) as [Hv Hs].
    { rewrite E. exact Hr. }
    unfold walk_fields in *. rewrite Hv, Hs, E. split; [reflexivity|].
    now rewrite fill_gaps_source, Hun, Hr.
  - assert (E : var_of f (fill_gaps r v) = var_of f v)
      by (rewrite fill_gaps_var, Hun, Hr; reflexivity).
    assert (S : field_sources (fill_gaps r v) !! field_key f
                = field_sources v !! field_key f)
      by (rewrite fill_gaps_source, Hun, Hr; reflexivity).
    specialize (IH (fill_gaps r v)). rewrite E, S in IH.
    exact (IH Hun).
Qed.

Lemma walk_fields_other_key rest (key : string) : forall v,
  (forall f, field_key f <> key) ->
  field_sources (walk_fields v rest) !! key = field_sources v !! key.
Proof.
  induction rest as [|r rest IH]; intros v H; [reflexivity|].
  change (walk_fields v (r :: rest)) with (walk_fields (fill_gaps r v) rest).
  rewrite IH by assumption. now apply fill_gaps_other_key.
Qed.

(** The merged scalar is the value of the highest-ranked result that
    supplies it, attributed to that result; when none does, the base's
    (unset) value stays and the attribution is [None]. *)
Lemma merged_field f best rest :
  match List.find (supplies f) (best :: rest) with
  | Some r =>
      supplies f r = true
      /\ var_of f (walk_fields (seed_fields best) rest) = value_of f r
      /\ field_sources (walk_fields (seed_fields best) rest) !! field_key f
         = Some (Some (source r))
  | None =>
      var_of f (walk_fields (seed_fields best) rest) = value_of f best
      /\ field_sources (walk_fields (seed_fields best) rest) !! field_key f
         = Some None
  end.
Proof.
  simpl. destruct (supplies f best) eqn:Hb.
  - destruct (walk_fields_kept f rest (seed_fields best)) as [Hv Hs].
    { now rewrite seed_var. }
    rewrite Hv, Hs, seed_var, seed_source, Hb. easy.
  - pose proof (walk_fields_gap f rest (seed_fields best)) as H.
    rewrite seed_var in H. specialize (H Hb).
    destruct (List.find (supplies f) rest) as [r|] eqn:F.
    + split; [|exact H]. now apply List.find_some in F.
    + rewrite seed_source, Hb in H. exact H.
Qed.

End Fields.

(** ** The item list, observed as a first-occurrence filter *)

(** The normalized description under which an item is compared, when the
    item passes [if item.get("description")]. *)
Definition keyed {str_methods : StrMethods} (item : Item) : option string :=
  if Py.truthy (description item)
  then Some (desc_key (default "" (description item)))
  else None.

(** The entry [item_sources] records for an item taken from source [src]. *)
Definition attribution (src : string) (item : Item) : ItemSource :=
  {| src_description := description item; src_source := src |}.

(** The items of the results in walking order, each with its source. *)
Definition tagged (rk : list ReceiptExtractionResult) : list (string * Item) :=
  List.flat_map (fun r => List.map (fun item => (source r, item)) (items r)) rk.

(** First occurrences: an item is kept when it has a key not met before. *)
Fixpoint dedup {str_methods : StrMethods} (seen : gset string) (l : list (string * Item)) : list (string * Item) :=
  match l with
  | [] => []
  | p :: l' =>
      match keyed (snd p) with
      | Some k =>
          if bool_decide (k ∈ seen) then dedup seen l' else p :: dedup (seen ∪ {[ k ]}) l'
      | None => dedup seen l'
      end
  end.

(** Does the item carry key [k]? *)
Definition has_key {str_methods : StrMethods} (k : string) (item : Item) : bool :=
  bool_decide (keyed item = Some k).

Section Items.

Context {str_methods : StrMethods}.

Implicit Types (iv : ItemVars) (l : list (string * Item)) (seen : gset string).

Definition keys_of l : gset string := list_to_set (omap (fun p => keyed (snd p)) l).

Lemma elem_of_keys_of k l :
  k ∈ keys_of l <-> exists p, In p l /\ keyed (snd p) = Some k.
Proof.
  unfold keys_of. rewrite elem_of_list_to_set, list_elem_of_omap.
  split; intros (p & H1 & H2); exists p; split; try assumption;
    now apply list_elem_of_In.
Qed.

Definition add_tagged iv (p : string * Item) : ItemVars := add_item (fst p) iv (snd p).

Lemma add_items_tagged r iv :
  add_items r iv
  = List.fold_left add_tagged (List.map (fun item => (source r, item)) (items r)) iv.
Proof.
  unfold add_items. destruct (items r) as [|i l]; [reflexivity|].
  simpl nonempty. cbv iota. generalize (i :: l). clear. intros l. revert iv.
  induction l as [|j l IH]; intros iv; [reflexivity|]. simpl. apply IH.
Qed.

Lemma walk_items_tagged rest : forall iv,
  walk_items iv rest = List.fold_left add_tagged (tagged rest) iv.
Proof.
  unfold walk_items.
  induction rest as [|r rest IH]; intros iv; [reflexivity|].
  simpl. rewrite List.fold_left_app, IH, add_items_tagged. reflexivity.
Qed.

Lemma keys_of_nil : keys_of [] = ∅.
Proof. reflexivity. Qed.

Lemma keys_of_cons p l :
  keys_of (p :: l)
  = match keyed (snd p) with
    | Some k => {[ k ]} ∪ keys_of l
    | None => keys_of l
    end.
Proof. unfold keys_of. simpl. destruct (keyed (snd p)); reflexivity. Qed.

Lemma add_item_keyed src iv item :
  add_item src iv item
  = match keyed item with
    | Some k =>
        if bool_decide (k ∈ seen_item_descriptions iv) then iv
        else {| all_items := all_items iv ++ [item];
                seen_item_descriptions := seen_item_descriptions iv ∪ {[ k ]};
                item_sources := item_sources iv ++ [attribution src item] |}
    | None => iv
    end.
Proof. unfold add_item, keyed. destruct (Py.truthy (description item)); reflexivity. Qed.

(** The loop over tagged items computes [dedup] and appends. *)
Lemma fold_add_tagged l : forall iv,
  List.fold_left add_tagged l iv
  = {| all_items := all_items iv ++ List.map snd (dedup (seen_item_descriptions iv) l);
       seen_item_descriptions := seen_item_descriptions iv ∪ keys_of l;
       item_sources :=
         item_sources iv
           ++ List.map (fun p => attribution (fst p) (snd p))
                (dedup (seen_item_descriptions iv) l) |}.
Proof.
  induction l as [|[s it] l IH]; intros [ai sn isrc].
  - simpl. rewrite !app_nil_r, keys_of_nil. f_equal. set_solver.
  - simpl List.fold_left. rewrite IH, keys_of_cons.
    unfold add_tagged. rewrite add_item_keyed. simpl.
    destruct (keyed it) as [k|] eqn:K; [|reflexivity].
    case_bool_decide as Hin; simpl.
    + f_equal. set_solver.
    + rewrite <- !app_assoc. simpl. f_equal. set_solver.
Qed.

Lemma merged_items best rest :
  walk_items (add_items best no_items) rest
  = {| all_items := List.map snd (dedup ∅ (tagged (best :: rest)));
       seen_item_descriptions := keys_of (tagged (best :: rest));
       item_sources :=
         List.map (fun p => attribution (fst p) (snd p))
           (dedup ∅ (tagged (best :: rest))) |}.
Proof.
  rewrite walk_items_tagged, add_items_tagged, <- List.fold_left_app.
  change (List.map (fun item => (source best, item)) (items best) ++ tagged rest)
    with (tagged (best :: rest)).
  rewrite fold_add_tagged. simpl. f_equal. set_solver.
Qed.

(** Every kept pair occurs in the input and has a key outside [seen]. *)
Lemma dedup_In l : forall seen p,
  In p (dedup seen l) ->
  In p l /\ exists k, keyed (snd p) = Some k /\ k ∉ seen.
Proof.
  induction l as [|q l IH]; intros seen p; simpl; [tauto|].
  destruct (keyed (snd q)) as [k|] eqn:K.
  - case_bool_decide as Hin.
    + intros H. apply IH in H as [H1 H2]. auto.
    + intros [<-|H].
      * split; [auto|]. exists k. auto.
      * apply IH in H as [H1 (k' & H2 & H3)]. split; [auto|].
        exists k'. split; [assumption|]. set_solver.
  - intros H. apply IH in H as [H1 H2]. auto.
Qed.

(** A key already seen is never kept. *)
Lemma dedup_seen k l : forall seen,
  k ∈ seen -> List.filter (fun p => has_key k (snd p)) (dedup seen l) = [].
Proof.
  induction l as [|q l IH]; intros seen Hk; simpl; [reflexivity|].
  destruct (keyed (snd q)) as [k'|] eqn:K; [|auto].
  case_bool_decide as Hin; [auto|].
  simpl. unfold has_key at 1. rewrite K.
  case_bool_decide as E.
  - congruence.
  - apply IH. set_solver.
Qed.


(** No key is kept twice. *)
Lemma dedup_keys_NoDup l : forall seen,
  NoDup (List.map (fun p => keyed (snd p)) (dedup seen l)).
Proof.
  induction l as [|q l IH]; intros seen; simpl; [constructor|].
  destruct (keyed (snd q)) as [k|] eqn:K; [|apply IH].
  case_bool_decide as Hin; [apply IH|].
  simpl. constructor; [|apply IH].
  rewrite K. intros H. apply list_elem_of_In, List.in_map_iff in H as (p & Hp & I).
  pose proof (dedup_seen k l (seen ∪ {[k]})) as F.
  assert (In p (List.filter (fun p => has_key k (snd p)) (dedup (seen ∪ {[k]}) l))).
  { apply List.filter_In. split; [assumption|].
    unfold has_key. now rewrite bool_decide_eq_true_2. }
  rewrite F in H by set_solver. contradiction.
Qed.

(** The kept keys are exactly the keys of the input not yet seen. *)
Lemma dedup_keys l : forall seen,
  keys_of (dedup seen l) = keys_of l ∖ seen.
Proof.
  induction l as [|q l IH]; intros seen.
  - simpl. rewrite keys_of_nil. set_solver.
  - simpl dedup. rewrite (keys_of_cons q l).
    destruct (keyed (snd q)) as [k|] eqn:K; [|apply IH].
    case_bool_decide as Hin.
    + rewrite IH. set_solver.
    + rewrite keys_of_cons, K, IH. apply set_eq. intros x.
      destruct (decide (x = k)) as [->|Hne]; set_solver.
Qed.

Lemma In_tagged p rk :
  In p (tagged rk) <-> exists r, In r rk /\ fst p = source r /\ In (snd p) (items r).
Proof.
  unfold tagged. rewrite List.in_flat_map. split.
  - intros (r & Hr & H). apply List.in_map_iff in H as (it & <- & Hit).
    exists r. auto.
  - intros (r & Hr & H1 & H2). exists r. split; [assumption|].
    apply List.in_map_iff. exists (snd p). split; [|assumption].
    destruct p; simpl in *; congruence.
Qed.

End Items.

(** ** The merge in terms of the ranking *)

Section Merge.

Context {str_methods : StrMethods}.

Implicit Types (r : ReceiptExtractionResult) (f : ScalarField)
  (results valid : list ReceiptExtractionResult).

Lemma result_score_result r : result (score_result r) = r.
Proof. reflexivity. Qed.

Lemma map_result_score valid : List.map result (List.map score_result valid) = valid.
Proof. rewrite List.map_map. apply List.map_id. Qed.

Lemma ranked_perm valid : Permutation (ranked valid) valid.
Proof.
  unfold ranked, scored_results.
  rewrite (sort_desc_perm (List.map score_result valid)).
  now rewrite map_result_score.
Qed.

Lemma In_ranked valid r : In r (ranked valid) <-> In r valid.
Proof.
  split; apply Permutation_in; [|symmetry]; apply ranked_perm.
Qed.

(** Every entry of the ranking is the scoring of its own result. *)
Lemma scored_results_ranked valid :
  scored_results valid = List.map score_result (ranked valid).
Proof.
  unfold ranked.
  assert (H : Forall (fun s => s = score_result (result s)) (scored_results valid)).
  { unfold scored_results. rewrite (sort_desc_perm (List.map score_result valid)).
    apply List.Forall_forall. intros s Hs.
    apply List.in_map_iff in Hs as (r & <- & _). reflexivity. }
  induction H as [|s sl Hs _ IH]; [reflexivity|].
  simpl. now rewrite <- IH, <- Hs.
Qed.

Lemma ranked_nil valid : ranked valid = [] <-> valid = [].
Proof.
  split; intros H.
  - apply Permutation_nil. rewrite <- H. apply ranked_perm.
  - subst. reflexivity.
Qed.

(** [merge], read through the ranking of the valid results. *)
Lemma merge_ranked now results :
  merge now results
  = match ranked (valid_results results) with
    | [] => NoValidResults
    | best :: rest =>
        Aggregated
          (finalize now (valid_results results)
             (scored_results (valid_results results))
             (score_result best) (walk (seed best) rest))
    end.
Proof.
  unfold merge.
  rewrite (scored_results_ranked (valid_results results)) at 1.
  destruct (ranked (valid_results results)) as [|best rest] eqn:E; [reflexivity|].
  simpl. rewrite map_result_score. reflexivity.
Qed.

Lemma merge_inv now results d :
  merge now results = Aggregated d ->
  exists best rest,
    ranked (valid_results results) = best :: rest
    /\ d = finalize now (valid_results results)
             (scored_results (valid_results results))
             (score_result best) (walk (seed best) rest).
Proof.
  rewrite merge_ranked.
  destruct (ranked (valid_results results)) as [|best rest]; [discriminate|].
  intros [= <-]. eauto.
Qed.

Lemma final_value_finalize f now valid sl top (m : MergeVars) :
  final_value f (finalize now valid sl top m) = with_default f (var_of f (fst m)).
Proof. destruct f; reflexivity. Qed.

Lemma with_default_set f x :
  (f = TotalAmount -> False) -> is_set x = true ->
  (exists r, x = value_of f r) -> with_default f x = x.
Proof.
  intros Hf Hx [r ->].
  destruct f; simpl in *; try tauto;
    match goal with
    | |- context [Py.or_str ?o _] =>
        destruct o as [s|]; simpl in *; [|discriminate];
        destruct (String.eqb s "") eqn:E; simpl in *; [discriminate | reflexivity]
    | _ => reflexivity
    end.
Qed.

(** Splitting a list at the first element that satisfies a test. *)
Lemma find_split {A} (p : A -> bool) (l : list A) x :
  List.find p l = Some x ->
  exists pre post, l = pre ++ x :: post /\ p x = true /\ Forall (fun y => p y = false) pre.
Proof.
  induction l as [|y l IH]; simpl; [discriminate|].
  destruct (p y) eqn:E.
  - intros [= ->]. exists [], l. repeat split; [assumption | constructor].
  - intros H. destruct (IH H) as (pre & post & -> & Hx & Hpre).
    exists (y :: pre), post. repeat split; [assumption | now constructor].
Qed.

Lemma find_none_iff {A} (p : A -> bool) (l : list A) :
  List.find p l = None <-> forall y, In y l -> p y = false.
Proof.
  split; [apply List.find_none|].
  induction l as [|y l IH]; simpl; [reflexivity|]. intros H.
  rewrite (H y) by now left. apply IH. intros z Hz. apply H. now right.
Qed.

(** What the final record holds for a scalar field and whom it credits. *)
Lemma merge_field now results d f best rest :
  ranked (valid_results results) = best :: rest ->
  merge now results = Aggregated d ->
  match List.find (supplies f) (best :: rest) with
  | Some r =>
      supplies f r = true
      /\ final_value f d = with_default f (value_of f r)
      /\ md_field_sources (final_metadata d) !! field_key f = Some (Some (source r))
  | None =>
      final_value f d = with_default f (value_of f best)
      /\ md_field_sources (final_metadata d) !! field_key f = Some None
  end.
Proof.
  intros E M. rewrite merge_ranked, E in M. injection M as <-.
  rewrite final_value_finalize. simpl md_field_sources.
  rewrite walk_split. simpl fst.
  pose proof (merged_field f best rest) as H.
  destruct (List.find (supplies f) (best :: rest)) as [r|].
  - destruct H as (H1 & H2 & H3). now rewrite H2, H3.
  - destruct H as (H2 & H3). now rewrite H2, H3.
Qed.

Lemma merge_items now results d best rest :
  ranked (valid_results results) = best :: rest ->
  merge now results = Aggregated d ->
  final_items d = List.map snd (dedup ∅ (tagged (best :: rest)))
  /\ md_item_sources (final_metadata d)
     = List.map (fun p => attribution (fst p) (snd p)) (dedup ∅ (tagged (best :: rest))).
Proof.
  intros E M. rewrite merge_ranked, E in M. injection M as <-.
  simpl. rewrite walk_split. simpl snd.
  unfold seed. simpl snd. rewrite merged_items. split; reflexivity.
Qed.

End Merge.

(** * The claims *)

(** ** C6: no valid results *)

(** C6. When every held result carries an error marker (the empty list
    included), the merge reports [NoValidResults]; no final record, and so no
    record of "Unknown"/0.0/"USD" defaults, is produced. *)
Theorem no_valid_results {str_methods : StrMethods} now results :
  Forall (fun r => is_valid r = false) results ->
  merge now results = NoValidResults
  /\ forall d, merge now results <> Aggregated d.
Proof.
  intros H.
  assert (E : valid_results results = []).
  { unfold valid_results. induction H as [|r l Hr _ IH]; [reflexivity|].
    simpl. now rewrite Hr. }
  assert (M : merge now results = NoValidResults).
  { rewrite merge_ranked, E. reflexivity. }
  split; [exact M|]. intros d. rewrite M. discriminate.
Qed.

Lemma no_valid_results_witness :
  merge "2025-01-01T00:00:00" [Scenario.failed; Scenario.failed] = NoValidResults
  /\ forall d, merge "2025-01-01T00:00:00" [Scenario.failed; Scenario.failed] <> Aggregated d.
Proof.
  apply no_valid_results. repeat constructor.
Defined.

(** The same through the entry point: a failed result arriving for a blob
    that holds only failed results yields [NoValidResults]. *)
Lemma aggregate_results_all_failed {str_methods : StrMethods} now (st : Store) r :
  is_valid r = false ->
  Forall (fun r' => is_valid r' = false) (default [] (st !! blob_name r)) ->
  snd (aggregate_results now st r) = NoValidResults.
Proof.
  intros Hr Hst. unfold aggregate_results, accumulate. simpl.
  rewrite lookup_insert_eq. simpl.
  apply no_valid_results. apply Forall_app. split; [assumption|].
  now constructor.
Qed.

(** ** C5: results with an error marker are excluded *)

Section ErrorsExcluded.

Context {str_methods : StrMethods}.

Lemma valid_results_drop (before after : list ReceiptExtractionResult) e :
  is_valid e = false ->
  valid_results (before ++ e :: after) = valid_results (before ++ after).
Proof.
  intros H. unfold valid_results. rewrite !List.filter_app. simpl. now rewrite H.
Qed.

Lemma valid_results_In results r :
  In r (valid_results results) <-> In r results /\ is_valid r = true.
Proof. apply List.filter_In. Qed.

(** C5. A result [e] whose [raw_response] has an ["error"] key, wherever it
    sits in the input, is dropped before scoring: the ranking of the valid
    results and the whole outcome are those of the input without [e];
    [sources_used] lists the valid results only; every attribution in
    [field_sources] and [item_sources] names a valid result that supplied the
    value. *)
Theorem errors_excluded now (before after : list ReceiptExtractionResult) e :
  is_valid e = false ->
  scored_results (valid_results (before ++ e :: after))
    = scored_results (valid_results (before ++ after))
  /\ merge now (before ++ e :: after) = merge now (before ++ after)
  /\ forall d, merge now (before ++ e :: after) = Aggregated d ->
       final_sources_used d = List.map source (valid_results (before ++ after))
       /\ (forall f s,
             md_field_sources (final_metadata d) !! field_key f = Some (Some s) ->
             exists r, In r (before ++ after) /\ is_valid r = true
                       /\ source r = s /\ supplies f r = true)
       /\ (forall a, In a (md_item_sources (final_metadata d)) ->
             exists r item, In r (before ++ after) /\ is_valid r = true
                            /\ In item (items r) /\ a = attribution (source r) item).
Proof.
  intros He. pose proof (valid_results_drop before after e He) as V.
  split; [now rewrite V|].
  assert (M : merge now (before ++ e :: after) = merge now (before ++ after)).
  { unfold merge. now rewrite V. }
  split; [exact M|].
  intros d Hd. rewrite M in Hd.
  destruct (merge_inv _ _ _ Hd) as (best & rest & E & Dd).
  split; [subst d; reflexivity|]. split.
  - intros f s Hs.
    pose proof (merge_field now _ d f best rest E Hd) as F.
    destruct (List.find (supplies f) (best :: rest)) as [r|] eqn:Fd.
    + destruct F as (F1 & _ & F3). rewrite F3 in Hs. injection Hs as <-.
      apply List.find_some in Fd as [I _]. rewrite <- E in I.
      apply (proj1 (In_ranked _ _)), valid_results_In in I as [I1 I2].
      exists r. repeat split; assumption.
    + destruct F as (_ & F3). rewrite F3 in Hs. discriminate.
  - intros a Ha.
    destruct (merge_items now _ d best rest E Hd) as (_ & Hsrc).
    rewrite Hsrc in Ha. apply List.in_map_iff in Ha as ([s item] & <- & I).
    apply dedup_In in I as [I _]. apply In_tagged in I as (r & Ir & Hs & Hi).
    simpl in Hs, Hi. subst s. rewrite <- E in Ir.
    apply (proj1 (In_ranked _ _)), valid_results_In in Ir as [I1 I2].
    exists r, item. repeat split; assumption.
Qed.

End ErrorsExcluded.

Lemma errors_excluded_witness :
  scored_results (valid_results ([Scenario.A] ++ Scenario.failed :: [Scenario.B]))
    = scored_results (valid_results ([Scenario.A] ++ [Scenario.B]))
  /\ merge "t" ([Scenario.A] ++ Scenario.failed :: [Scenario.B])
     = merge "t" ([Scenario.A] ++ [Scenario.B])
  /\ forall d, merge "t" ([Scenario.A] ++ Scenario.failed :: [Scenario.B]) = Aggregated d ->
       final_sources_used d
         = List.map source (valid_results ([Scenario.A] ++ [Scenario.B]))
       /\ (forall f s,
             md_field_sources (final_metadata d) !! field_key f = Some (Some s) ->
             exists r, In r ([Scenario.A] ++ [Scenario.B]) /\ is_valid r = true
                       /\ source r = s /\ supplies f r = true)
       /\ (forall a, In a (md_item_sources (final_metadata d)) ->
             exists r item, In r ([Scenario.A] ++ [Scenario.B]) /\ is_valid r = true
                            /\ In item (items r) /\ a = attribution (source r) item).
Proof.
  apply (errors_excluded "t" [Scenario.A] [Scenario.B] Scenario.failed).
  reflexivity.
Defined.

(** ** C1: a field set by the base result is never overwritten *)

Section NoOverwrite.

Context {str_methods : StrMethods}.

(** The entry of [field_sources] for a field in the final record. *)
Definition credit (f : ScalarField) (d : FinalReceiptData) : option (option string) :=
  md_field_sources (final_metadata d) !! field_key f.

(** C1. Let [best :: rest] be the valid results in descending score order.
    If the base result [best] sets a scalar field, then after any number [n]
    of further results have been walked the merge variable still holds the
    base's value and [field_sources] still credits the base, whatever the
    walked results carry; the final record shows that value and credit.
    In general a credited result [r] supplies the field, the final record
    shows its value, and every result ranked above [r] left the field unset. *)
Theorem no_overwrite now results best rest f :
  ranked (valid_results results) = best :: rest ->
  (supplies f best = true ->
     (forall n,
        var_of f (fst (walk (seed best) (firstn n rest))) = value_of f best
        /\ field_sources (fst (walk (seed best) (firstn n rest))) !! field_key f
           = Some (Some (source best)))
     /\ (forall d, merge now results = Aggregated d ->
           final_value f d = with_default f (value_of f best)
           /\ credit f d = Some (Some (source best))))
  /\ (forall d s, merge now results = Aggregated d ->
        credit f d = Some (Some s) ->
        exists higher r lower,
          best :: rest = higher ++ r :: lower
          /\ Forall (fun r' => supplies f r' = false) higher
          /\ supplies f r = true
          /\ source r = s
          /\ final_value f d = with_default f (value_of f r)).
Proof.
  intros E. split.
  - intros Hb. split.
    + intros n. rewrite walk_split. simpl fst.
      destruct (walk_fields_kept f (firstn n rest) (seed_fields best)) as [Hv Hs].
      { now rewrite seed_var. }
      rewrite Hv, Hs, seed_var, seed_source, Hb. split; reflexivity.
    + intros d Hd. pose proof (merge_field now results d f best rest E Hd) as F.
      simpl in F. rewrite Hb in F. destruct F as (_ & F2 & F3). now split.
  - intros d s Hd Hs. pose proof (merge_field now results d f best rest E Hd) as F.
    unfold credit in Hs.
    destruct (List.find (supplies f) (best :: rest)) as [r|] eqn:Fd.
    + destruct F as (F1 & F2 & F3). rewrite F3 in Hs. injection Hs as <-.
      destruct (find_split _ _ _ Fd) as (higher & lower & Hl & _ & Hh).
      exists higher, r, lower. repeat split; assumption.
    + destruct F as (_ & F3). rewrite F3 in Hs. discriminate.
Qed.

End NoOverwrite.

Module Overwrite.
(** A base with a merchant name and a lower-ranked result with another one. *)
Definition base : ReceiptExtractionResult :=
  {| source := "document_intelligence"; merchant_name := Some "Cafe X";
     transaction_date := Some "2025-03-01"; transaction_time := None;
     total_amount := Some 4.5%float; currency := None; items := [];
     raw_response := ∅; confidence_score := Some 0.9%float; blob_name := "r1.jpg" |}.

Definition other : ReceiptExtractionResult :=
  {| source := "mistral"; merchant_name := Some "CAFE-X LTD";
     transaction_date := None; transaction_time := None;
     total_amount := Some 5.5%float; currency := Some "EUR"; items := [];
     raw_response := ∅; confidence_score := Some 0.4%float; blob_name := "r1.jpg" |}.
End Overwrite.

Lemma no_overwrite_witness :
  let now := "t" in
  let results := [Overwrite.other; Overwrite.base] in
  let best := Overwrite.base in
  let rest := [Overwrite.other] in
  let f := MerchantName in
  (supplies f best = true ->
     (forall n,
        var_of f (fst (walk (seed best) (firstn n rest))) = value_of f best
        /\ field_sources (fst (walk (seed best) (firstn n rest))) !! field_key f
           = Some (Some (source best)))
     /\ (forall d, merge now results = Aggregated d ->
           final_value f d = with_default f (value_of f best)
           /\ credit f d = Some (Some (source best))))
  /\ (forall d s, merge now results = Aggregated d ->
        credit f d = Some (Some s) ->
        exists higher r lower,
          best :: rest = higher ++ r :: lower
          /\ Forall (fun r' => supplies f r' = false) higher
          /\ supplies f r = true
          /\ source r = s
          /\ final_value f d = with_default f (value_of f r)).
Proof.
  apply (no_overwrite "t" [Overwrite.other; Overwrite.base] Overwrite.base
           [Overwrite.other] MerchantName).
  vm_compute. reflexivity.
Defined.

(** The lower-ranked, different merchant name and amount do not get through;
    the currency, which the base left unset, does. *)
Example no_overwrite_run :
  match merge "t" [Overwrite.other; Overwrite.base] with
  | Aggregated d =>
      (final_merchant_name d, final_total_amount d, final_currency d,
       credit MerchantName d, credit TotalAmount d, credit Currency d)
      = ("Cafe X", 4.5%float, "EUR",
         Some (Some "document_intelligence"), Some (Some "document_intelligence"),
         Some (Some "mistral"))
  | NoValidResults => False
  end.
Proof. vm_compute. reflexivity. Qed.

(** ** C9: the shape of [field_sources] *)

(** C9 as stated fails: with no source supplying the amount, [field_sources]
    still has the entry ["total_amount"], holding [None]. *)
Lemma field_sources_null_entry :
  exists d,
    merge "t" [Scenario.A] = Aggregated d
    /\ (forall r, In r (valid_results [Scenario.A]) -> supplies TotalAmount r = false)
    /\ credit TotalAmount d = Some None
    /\ credit TotalAmount d <> None.
Proof.
  eexists. split; [vm_compute; reflexivity|]. split.
  - intros r [<-|[]]. reflexivity.
  - split; [vm_compute; reflexivity | vm_compute; discriminate].
Qed.

Section FieldSources.

Context {str_methods : StrMethods}.

(** The two cases of an entry of [field_sources]. *)
Lemma credit_cases now results d f :
  merge now results = Aggregated d ->
  (exists r, In r (valid_results results) /\ supplies f r = true
             /\ credit f d = Some (Some (source r))
             /\ final_value f d = with_default f (value_of f r))
  \/ ((forall r, In r (valid_results results) -> supplies f r = false)
      /\ credit f d = Some None).
Proof.
  intros Hd. destruct (merge_inv _ _ _ Hd) as (best & rest & E & Dd).
  pose proof (merge_field now results d f best rest E Hd) as F.
  destruct (List.find (supplies f) (best :: rest)) as [r|] eqn:Fd.
  - left. destruct F as (F1 & F2 & F3). exists r.
    apply List.find_some in Fd as [I _]. rewrite <- E in I.
    apply (proj1 (In_ranked _ _)) in I.
    split; [exact I|]. split; [exact F1|]. split; [exact F3 | exact F2].
  - right. destruct F as (_ & F3). split; [|exact F3].
    intros r I. apply (proj2 (In_ranked _ _)) in I. rewrite E in I.
    revert r I. now apply find_none_iff.
Qed.

Lemma field_sources_keys now results d (key : string) :
  merge now results = Aggregated d ->
  (forall f, field_key f <> key) ->
  md_field_sources (final_metadata d) !! key = None.
Proof.
  intros Hd Hk. destruct (merge_inv _ _ _ Hd) as (best & rest & E & ->).
  simpl. rewrite walk_split. simpl fst.
  rewrite walk_fields_other_key by assumption. now apply seed_other_key.
Qed.

(** C9, amended. In every final record [field_sources] has an entry for each
    of the five scalar field names and for nothing else.  The entry of a field
    that some valid result supplies is the source of the result whose value
    the record shows; the entry of a field that no valid result supplies is
    [None]. *)
Theorem field_sources_shape now results d :
  merge now results = Aggregated d ->
  (forall f,
     (exists r, In r (valid_results results) /\ supplies f r = true
                /\ credit f d = Some (Some (source r))
                /\ final_value f d = with_default f (value_of f r))
     \/ ((forall r, In r (valid_results results) -> supplies f r = false)
         /\ credit f d = Some None))
  /\ (forall key : string,
        (forall f, field_key f <> key) ->
        md_field_sources (final_metadata d) !! key = None).
Proof.
  intros Hd. split.
  - intros f. now apply (credit_cases now results).
  - intros key. now apply (field_sources_keys now results).
Qed.

End FieldSources.

Lemma field_sources_shape_witness :
  let now := "t" in
  let results := [Scenario.A; Scenario.B] in
  let d := match merge now results with
           | Aggregated d => d
           | NoValidResults =>
               finalize now [] [] (score_result Scenario.A) (seed Scenario.A)
           end in
  (forall f,
     (exists r, In r (valid_results results) /\ supplies f r = true
                /\ credit f d = Some (Some (source r))
                /\ final_value f d = with_default f (value_of f r))
     \/ ((forall r, In r (valid_results results) -> supplies f r = false)
         /\ credit f d = Some None))
  /\ (forall key : string,
        (forall f, field_key f <> key) ->
        md_field_sources (final_metadata d) !! key = None).
Proof.
  apply (field_sources_shape "t" [Scenario.A; Scenario.B]).
  vm_compute. reflexivity.
Defined.

(** ** C10: an empty string is treated as an absent value *)

Section EmptyStrings.

Context {str_methods : StrMethods}.

(** The result with field [f] replaced by [None]. *)
Definition unset (f : ScalarField) (r : ReceiptExtractionResult) : ReceiptExtractionResult :=
  {| source := source r;
     merchant_name := match f with MerchantName => None | _ => merchant_name r end;
     transaction_date := match f with TransactionDate => None | _ => transaction_date r end;
     transaction_time := match f with TransactionTime => None | _ => transaction_time r end;
     total_amount := match f with TotalAmount => None | _ => total_amount r end;
     currency := match f with Currency => None | _ => currency r end;
     items := items r;
     raw_response := raw_response r;
     confidence_score := confidence_score r;
     blob_name := blob_name r |}.

(** The value the final record shows for a field nobody supplied, for the
    fields that have such a default ([transaction_time] has none). *)
Definition default_of (f : ScalarField) : option Value :=
  match f with
  | MerchantName => Some (VStr (Some "Unknown"))
  | TransactionDate => Some (VStr (Some "Unknown"))
  | TransactionTime => None
  | TotalAmount => Some (VNum (Some 0.0%float))
  | Currency => Some (VStr (Some "USD"))
  end.

Lemma score_unset_empty f r :
  value_of f r = VStr (Some "") -> score_result (unset f r) = {|
    result := unset f r;
    score := final_score r;
    completeness := normalized_completeness r;
    confidence := confidence_of r |}.
Proof.
  intros H. unfold score_result. f_equal;
    unfold final_score, normalized_completeness, tally, item_score, confidence_of,
      source_priority;
    destruct f; simpl in *; try discriminate; injection H as ->; reflexivity.
Qed.

(** C10. A string field holding [""] behaves as an absent one:
    (a) it adds nothing to the score: the completeness and the final score are
        those of the result with the field removed;
    and when the base result holds [""] for field [f],
    (b) the base is not credited for [f];
    (c) the first lower-ranked result with a non-empty value is adopted and
        credited;
    (d) if no result has a non-empty value, nobody is credited and the final
        record shows the default of [f]. *)
Theorem empty_string_is_absent :
  (forall f r,
     value_of f r = VStr (Some "") ->
     normalized_completeness r = normalized_completeness (unset f r)
     /\ final_score r = final_score (unset f r))
  /\ (forall now results d best rest f,
        ranked (valid_results results) = best :: rest ->
        merge now results = Aggregated d ->
        value_of f best = VStr (Some "") ->
        supplies f best = false
        /\ (forall r, List.find (supplies f) rest = Some r ->
              final_value f d = value_of f r
              /\ credit f d = Some (Some (source r)))
        /\ (List.find (supplies f) rest = None ->
              credit f d = Some None
              /\ forall x, default_of f = Some x -> final_value f d = x)).
Proof.
  split.
  - intros f r H. pose proof (score_unset_empty f r H) as S.
    pose proof (f_equal score S) as S1. pose proof (f_equal completeness S) as S2.
    simpl in S1, S2. now rewrite S1, S2.
  - intros now results d best rest f E Hd Hb.
    assert (Ub : supplies f best = false) by (unfold supplies; now rewrite Hb).
    split; [exact Ub|].
    pose proof (merge_field now results d f best rest E Hd) as F.
    simpl in F. rewrite Ub in F. split.
    + intros r Fr. rewrite Fr in F. destruct F as (F1 & F2 & F3).
      split; [|exact F3]. rewrite F2.
      destruct f; try discriminate Hb; unfold supplies in F1; simpl in *;
        destruct r; simpl in *;
        match goal with
        | H : Py.truthy ?o = true |- _ =>
            destruct o as [s|]; simpl in *; [|discriminate];
            destruct (String.eqb s ""); [discriminate | reflexivity]
        end.
    + intros Fn. rewrite Fn in F. destruct F as (F2 & F3).
      split; [exact F3|]. intros x Hx. rewrite F2, Hb.
      destruct f; simpl in *; congruence.
Qed.

End EmptyStrings.

Module EmptyString.
(** The top-scored result carries [""] where the other carries a name. *)
Definition base : ReceiptExtractionResult :=
  {| source := "document_intelligence"; merchant_name := Some "";
     transaction_date := Some "2025-03-01"; transaction_time := Some "";
     total_amount := Some 4.5%float; currency := Some ""; items := [];
     raw_response := ∅; confidence_score := Some 0.9%float; blob_name := "r1.jpg" |}.

Definition other : ReceiptExtractionResult :=
  {| source := "mistral"; merchant_name := Some "Cafe X";
     transaction_date := None; transaction_time := None;
     total_amount := None; currency := Some ""; items := [];
     raw_response := ∅; confidence_score := Some 0.4%float; blob_name := "r1.jpg" |}.
End EmptyString.

Example empty_string_run :
  match merge "t" [EmptyString.base; EmptyString.other] with
  | Aggregated d =>
      (final_merchant_name d, final_currency d, final_transaction_time d,
       credit MerchantName d, credit Currency d, credit TransactionTime d)
      = ("Cafe X", "USD", Some "",
         Some (Some "mistral"), Some None, Some None)
  | NoValidResults => False
  end.
Proof. vm_compute. reflexivity. Qed.

Lemma empty_string_is_absent_witness :
  let now := "t" in
  let results := [EmptyString.base; EmptyString.other] in
  let best := EmptyString.base in
  let rest := [EmptyString.other] in
  let f := MerchantName in
  let d := match merge now results with
           | Aggregated d => d
           | NoValidResults => finalize now [] [] (score_result best) (seed best)
           end in
  supplies f best = false
  /\ (forall r, List.find (supplies f) rest = Some r ->
        final_value f d = value_of f r
        /\ credit f d = Some (Some (source r)))
  /\ (List.find (supplies f) rest = None ->
        credit f d = Some None
        /\ forall x, default_of f = Some x -> final_value f d = x).
Proof.
  apply (proj2 empty_string_is_absent "t" [EmptyString.base; EmptyString.other]);
    vm_compute; reflexivity.
Defined.

(** ** C8: adding a result never removes a filled field or an item *)

Section Monotone.

Context {str_methods : StrMethods}.

(** A scalar field is filled when the final record credits a source for it. *)
Definition filled (f : ScalarField) (d : FinalReceiptData) : Prop :=
  exists s, credit f d = Some (Some s).

(** The normalized descriptions of the items of the final record. *)
Definition item_keys (d : FinalReceiptData) : gset string :=
  list_to_set (omap keyed (final_items d)).

Lemma keys_of_map_snd (l : list (string * Item)) :
  list_to_set (omap keyed (List.map snd l)) = keys_of l.
Proof.
  induction l as [|p l IH]; [reflexivity|].
  rewrite keys_of_cons, <- IH. simpl. destruct (keyed (snd p)); reflexivity.
Qed.

Lemma filled_iff now results d f :
  merge now results = Aggregated d ->
  filled f d <-> exists r, In r (valid_results results) /\ supplies f r = true.
Proof.
  intros Hd. pose proof (credit_cases now results d f Hd) as H.
  unfold filled. split.
  - intros [s Hs]. destruct H as [(r & I & S & _)|[_ C]]; [eauto|congruence].
  - intros (r & I & S). destruct H as [(r' & _ & _ & C & _)|[N _]]; [eauto|].
    rewrite (N r I) in S. discriminate.
Qed.

Lemma item_keys_iff now results d k :
  merge now results = Aggregated d ->
  k ∈ item_keys d
  <-> exists r item, In r (valid_results results) /\ In item (items r)
                     /\ keyed item = Some k.
Proof.
  intros Hd. destruct (merge_inv _ _ _ Hd) as (best & rest & E & _).
  destruct (merge_items now results d best rest E Hd) as [Hi _].
  unfold item_keys. rewrite Hi, keys_of_map_snd, dedup_keys, <- E.
  rewrite elem_of_difference, elem_of_keys_of. split.
  - intros [([s item] & I & K) _]. apply In_tagged in I as (r & Ir & _ & Hitem).
    apply (proj1 (In_ranked _ _)) in Ir. simpl in *. eauto.
  - intros (r & item & Ir & Hitem & K). split; [|set_solver].
    exists (source r, item). split; [|exact K].
    apply In_tagged. exists r. split; [now apply In_ranked | now split].
Qed.

Lemma aggregate_results_merge now (st : Store) r :
  aggregate_results now st r
  = (accumulate st r, merge now (default [] (st !! blob_name r) ++ [r])).
Proof.
  unfold aggregate_results, accumulate. now rewrite lookup_insert_eq.
Qed.

(** C8. Let [d] be the record merged from the results held for a blob.  When
    one more result [r] arrives for that blob (a valid one in particular),
    the entry point again yields a record [d'], every scalar field filled in
    [d] is filled in [d'], and every normalized item description of [d] is one
    of [d']. *)
Theorem completeness_monotone now now' (st : Store) r d :
  merge now (default [] (st !! blob_name r)) = Aggregated d ->
  exists d',
    snd (aggregate_results now' st r) = Aggregated d'
    /\ (forall f, filled f d -> filled f d')
    /\ item_keys d ⊆ item_keys d'.
Proof.
  intros Hd. rewrite aggregate_results_merge. simpl snd.
  set (held := default [] (st !! blob_name r)) in *.
  assert (V : forall x, In x (valid_results held) -> In x (valid_results (held ++ [r]))).
  { intros x. rewrite !valid_results_In, List.in_app_iff. tauto. }
  destruct (merge now' (held ++ [r])) as [|d'] eqn:Hd'.
  - exfalso. destruct (merge_inv _ _ _ Hd) as (best & rest & E & _).
    rewrite merge_ranked in Hd'.
    destruct (ranked (valid_results (held ++ [r]))) eqn:E'; [|discriminate].
    apply (proj1 (ranked_nil _)) in E'.
    assert (I : In best (valid_results held)).
    { apply (proj1 (In_ranked _ _)). rewrite E. now left. }
    apply V in I. rewrite E' in I. contradiction.
  - exists d'. split; [reflexivity|]. split.
    + intros f Hf. apply (filled_iff now' _ d' f Hd').
      apply (filled_iff now _ d f Hd) in Hf as (x & I & S). eauto.
    + intros k Hk. apply (item_keys_iff now' _ d' k Hd').
      apply (item_keys_iff now _ d k Hd) in Hk as (x & item & I & Hi & K).
      exists x, item. auto.
Qed.

End Monotone.

Lemma completeness_monotone_witness :
  let st : Store := {[ "r1.jpg" := [Scenario.A] ]} in
  let d := match merge "t1" [Scenario.A] with
           | Aggregated d => d
           | NoValidResults =>
               finalize "t1" [] [] (score_result Scenario.A) (seed Scenario.A)
           end in
  exists d',
    snd (aggregate_results "t2" st Scenario.B) = Aggregated d'
    /\ (forall f, filled f d -> filled f d')
    /\ item_keys d ⊆ item_keys d'.
Proof.
  apply (completeness_monotone "t1" "t2" {[ "r1.jpg" := [Scenario.A] ]} Scenario.B).
  vm_compute. reflexivity.
Defined.

(** ** C7: items are deduplicated by normalized description *)

Section ItemDedup.

Context {str_methods : StrMethods}.





Lemma lookup_map {A B} (g : A -> B) (l : list A) : forall i,
  List.map g l !! i = option_map g (l !! i).
Proof.
  induction l as [|x l IH]; intros [|i]; simpl; try reflexivity. apply IH.
Qed.




End ItemDedup.

Module Coffee.
Definition item (desc : string) (p : float) : Item :=
  {| description := Some desc; quantity := None; price := Some p; total_price := None |}.

Definition blank : Item :=
  {| description := Some ""; quantity := None; price := None; total_price := None |}.

Definition nameless : Item :=
  {| description := None; quantity := None; price := Some 1.0%float; total_price := None |}.

Definition top : ReceiptExtractionResult :=
  {| source := "document_intelligence"; merchant_name := Some "Cafe X";
     transaction_date := Some "2025-03-01"; transaction_time := None;
     total_amount := Some 3.0%float; currency := Some "USD";
     items := [nameless; item "Coffee" 3.0%float];
     raw_response := ∅; confidence_score := Some 0.9%float; blob_name := "r1.jpg" |}.

Definition low : ReceiptExtractionResult :=
  {| source := "mistral"; merchant_name := None;
     transaction_date := None; transaction_time := None;
     total_amount := None; currency := None;
     items := [item "  coffee  " 3.5%float; blank; item "Tea" 2.0%float];
     raw_response := ∅; confidence_score := Some 0.4%float; blob_name := "r1.jpg" |}.
End Coffee.


(** "Coffee" and "  coffee  " give one merged item, from the higher-ranked
    result; the items without a usable description are gone. *)
Example item_dedup_run :
  match merge "t" [Coffee.low; Coffee.top] with
  | Aggregated d =>
      final_items d = [Coffee.item "Coffee" 3.0%float; Coffee.item "Tea" 2.0%float]
      /\ md_item_sources (final_metadata d)
         = [ {| src_description := Some "Coffee"; src_source := "document_intelligence" |};
             {| src_description := Some "Tea"; src_source := "mistral" |} ]
  | NoValidResults => False
  end.
Proof. vm_compute. split; reflexivity. Qed.

(** Beyond ASCII the key follows the tables of the interpreter.  On the code
    points up to U+00FF, one to an [ascii], [str.lower] also moves U+00C0 to
    U+00DE (the multiplication sign U+00D7 apart) 32 places up, and
    [str.strip] also removes U+0085 and U+00A0. *)
Module Latin1.

Definition lower_char (c : ascii) : ascii :=
  let n := nat_of_ascii c in
  if (192 <=? n)%nat && (n <=? 222)%nat && negb (n =? 215)%nat
  then ascii_of_nat (n + 32)
  else Py.lower_char c.

Fixpoint lower (s : string) : string :=
  match s with
  | EmptyString => EmptyString
  | String c t => String (lower_char c) (lower t)
  end.

Definition is_space (c : ascii) : bool :=
  let n := nat_of_ascii c in
  Py.is_space c || (n =? 133)%nat || (n =? 160)%nat.

Fixpoint lstrip (s : string) : string :=
  match s with
  | EmptyString => EmptyString
  | String c t => if is_space c then lstrip t else s
  end.

Fixpoint rstrip (s : string) : string :=
  match s with
  | EmptyString => EmptyString
  | String c t =>
      match rstrip t with
      | EmptyString => if is_space c then EmptyString else String c EmptyString
      | t' => String c t'
      end
  end.

Definition strip (s : string) : string := rstrip (lstrip s).

Definition methods : StrMethods := {| str_lower := lower; str_strip := strip |}.

(** U+00C9 (E with acute), U+00E9 (e with acute), U+00A0 (no-break space). *)
Definition E_acute : string := String (ascii_of_nat 201) EmptyString.
Definition e_acute : string := String (ascii_of_nat 233) EmptyString.
Definition nbsp : string := String (ascii_of_nat 160) EmptyString.

Definition top : ReceiptExtractionResult :=
  {| source := "document_intelligence"; merchant_name := Some "Cafe X";
     transaction_date := Some "2025-03-01"; transaction_time := None;
     total_amount := Some 5.0%float; currency := Some "EUR";
     items := [Coffee.item ("CAF" ++ E_acute) 3.0%float;
               Coffee.item ("Tea" ++ nbsp) 2.0%float];
     raw_response := ∅; confidence_score := Some 0.9%float; blob_name := "r1.jpg" |}.

Definition low : ReceiptExtractionResult :=
  {| source := "mistral"; merchant_name := None;
     transaction_date := None; transaction_time := None;
     total_amount := None; currency := None;
     items := [Coffee.item ("caf" ++ e_acute) 3.5%float; Coffee.item "tea" 2.5%float];
     raw_response := ∅; confidence_score := Some 0.4%float; blob_name := "r1.jpg" |}.

End Latin1.

(** With these methods the two spellings of each description are one item:
    the merged list is the item list of the higher-ranked result, and both
    entries are credited to it. *)
Example item_dedup_beyond_ascii :
  match merge (str_methods := Latin1.methods) "t" [Latin1.low; Latin1.top] with
  | Aggregated d =>
      final_items d = items Latin1.top
      /\ List.map src_source (md_item_sources (final_metadata d))
         = ["document_intelligence"; "document_intelligence"]
  | NoValidResults => False
  end.
Proof. vm_compute. split; reflexivity. Qed.

(** ** C3: the outcome does not depend on the arrival order, ties apart *)

Section OrderIndependence.

Context {str_methods : StrMethods}.

(** The output field values of an outcome. *)
Definition field_values (o : Outcome)
  : option (string * string * option string * float * string * list Item) :=
  match o with
  | NoValidResults => None
  | Aggregated d =>
      Some (final_merchant_name d, final_transaction_date d, final_transaction_time d,
            final_total_amount d, final_currency d, final_items d)
  end.

(** The results whose score compares equal to [k], in arrival order. *)
Definition same_score (k : float) (l : list ReceiptExtractionResult)
  : list ReceiptExtractionResult :=
  List.filter (fun r => (final_score r =? k)%float) l.


Lemma tied_map_score k l :
  tied k (List.map score_result l) = List.map score_result (same_score k l).
Proof.
  unfold tied, same_score. induction l as [|r l IH]; [reflexivity|].
  simpl. destruct (final_score r =? k)%float; simpl; now rewrite IH.
Qed.

Lemma no_nan_map_score l :
  Forall (fun r => is_nan (final_score r) = false) l ->
  no_nan (List.map score_result l).
Proof.
  unfold no_nan. rewrite List.Forall_map. apply List.Forall_impl. auto.
Qed.








End OrderIndependence.


Module Tie.
(** Two results with the same score and different merchant names. *)
Definition first : ReceiptExtractionResult :=
  {| source := "mistral"; merchant_name := Some "Cafe X";
     transaction_date := None; transaction_time := None;
     total_amount := None; currency := None; items := [];
     raw_response := ∅; confidence_score := Some 0.5%float; blob_name := "r1.jpg" |}.

Definition second : ReceiptExtractionResult :=
  {| source := "mistral"; merchant_name := Some "Cafe Y";
     transaction_date := None; transaction_time := None;
     total_amount := None; currency := None; items := [];
     raw_response := ∅; confidence_score := Some 0.5%float; blob_name := "r1.jpg" |}.
End Tie.

(** With equal scores the result that arrived first is the base. *)
Example tie_broken_by_arrival :
  (final_score Tie.first =? final_score Tie.second)%float = true
  /\ field_values (merge "t" [Tie.first; Tie.second])
     = Some ("Cafe X", "Unknown", None, 0.0%float, "USD", [])
  /\ field_values (merge "t" [Tie.second; Tie.first])
     = Some ("Cafe Y", "Unknown", None, 0.0%float, "USD", []).
Proof. vm_compute. repeat split; reflexivity. Qed.

(** ** C2: the scoring function *)

Lemma SFmul_comm prec emax x y : SFmul prec emax x y = SFmul prec emax y x.
Proof.
  destruct x as [sx|sx| |sx mx ex], y as [sy|sy| |sy my ey]; simpl;
    rewrite ?(xorb_comm sx sy), ?(Pos.mul_comm mx my), ?(Z.add_comm ex ey);
    reflexivity.
Qed.

Lemma float_mul_comm (x y : float) : (x * y = y * x)%float.
Proof.
  apply Prim2SF_inj. rewrite !FloatAxioms.mul_spec. apply SFmul_comm.
Qed.

(** The score as the specification words it: a weighted sum over the present
    fields divided by their number, combined with the confidence and the
    source priority. *)
Module Spec.

(** Each field with its presence test and its weight, in the order of the
    specification. *)
Definition weights (r : ReceiptExtractionResult) : list (bool * float) :=
  [ (Py.truthy (merchant_name r), 2.0%float);
    (Py.truthy (transaction_date r), 2.0%float);
    (bool_decide (is_Some (total_amount r)), 3.0%float);
    (Py.truthy (currency r), 1.0%float);
    (nonempty (items r),
      Py.min (Py.float_of_int (Z.of_nat (List.length (items r))) * 0.5)%float 5.0%float);
    (Py.truthy (transaction_time r), 1.0%float) ].

Definition present_weights (r : ReceiptExtractionResult) : list float :=
  List.map snd (List.filter fst (weights r)).

Definition sum (ws : list float) : float :=
  List.fold_left PrimFloat.add ws 0.0%float.

Definition normalized_completeness (r : ReceiptExtractionResult) : float :=
  match present_weights r with
  | [] => 0.0%float
  | ws => (sum ws / Py.float_of_int (Z.of_nat (List.length ws)))%float
  end.

Definition confidence (r : ReceiptExtractionResult) : float :=
  default 0.5%float (confidence_score r).

Definition priority (r : ReceiptExtractionResult) : float :=
  Py.float_of_int (default 0%Z (source_priorities !! source r)).

Definition score (r : ReceiptExtractionResult) : float :=
  (0.7 * normalized_completeness r + 0.3 * confidence r + 0.01 * priority r)%float.

End Spec.

Lemma normalized_completeness_spec r :
  normalized_completeness r = Spec.normalized_completeness r.
Proof.
  unfold normalized_completeness, Spec.normalized_completeness, Spec.present_weights,
    Spec.weights, Spec.sum, tally, item_score.
  generalize (Py.min (Py.float_of_int (Z.of_nat (List.length (items r))) * 0.5) 5)%float.
  intros w.
  destruct (Py.truthy (merchant_name r)), (Py.truthy (transaction_date r)),
    (bool_decide (is_Some (total_amount r))), (Py.truthy (currency r)),
    (nonempty (items r)), (Py.truthy (transaction_time r)); reflexivity.
Qed.

(** C2. For every extraction result the computed score is
    0.7 x normalized_completeness + 0.3 x confidence + 0.01 x source_priority,
    where normalized_completeness is the sum of the weights of the present
    fields (merchant_name 2.0, transaction_date 2.0, total_amount 3.0 with 0
    counted as present, currency 1.0, non-empty items min(count x 0.5, 5.0),
    transaction_time 1.0) divided by the number of present fields, or 0.0 when
    none is present, and confidence is [confidence_score] when present, else
    0.5.  All operations are those of binary64 arithmetic; a string field is
    present when it is neither absent nor empty. *)
Theorem score_formula r :
  score (score_result r) = Spec.score r
  /\ completeness (score_result r) = Spec.normalized_completeness r
  /\ confidence (score_result r) = Spec.confidence r.
Proof.
  simpl. split; [|split].
  - unfold final_score, Spec.score, source_priority.
    rewrite normalized_completeness_spec.
    rewrite (float_mul_comm 0.7), (float_mul_comm 0.3), (float_mul_comm 0.01).
    reflexivity.
  - apply normalized_completeness_spec.
  - unfold confidence_of, Spec.confidence. destruct (confidence_score r); reflexivity.
Qed.

Module Zero.
(** An amount of 0 counts as a present field; an absent one does not. *)
Definition free : ReceiptExtractionResult :=
  {| source := "mistral"; merchant_name := Some "Cafe X";
     transaction_date := None; transaction_time := None;
     total_amount := Some 0.0%float; currency := None; items := [];
     raw_response := ∅; confidence_score := None; blob_name := "r1.jpg" |}.
End Zero.

Example score_examples :
  (final_score Scenario.A, final_score Scenario.B, final_score Zero.free,
   normalized_completeness Zero.free,
   normalized_completeness (unset TotalAmount Zero.free),
   final_score Scenario.failed)
  = (1.7, 1.2799999999999998, 1.9199999999999999, 2.5, 2.0, 0.16)%float.
Proof. vm_compute. reflexivity. Qed.

(** ** C4: merging the same set twice *)

(** The outcome with [processing_timestamp] replaced by [t]. *)
Definition restamp (t : string) (o : Outcome) : Outcome :=
  match o with
  | NoValidResults => NoValidResults
  | Aggregated d =>
      let md := final_metadata d in
      Aggregated
        {| final_merchant_name := final_merchant_name d;
           final_transaction_date := final_transaction_date d;
           final_transaction_time := final_transaction_time d;
           final_total_amount := final_total_amount d;
           final_currency := final_currency d;
           final_items := final_items d;
           final_metadata :=
             {| processing_timestamp := t;
                md_confidence_score := md_confidence_score md;
                md_completeness_score := md_completeness_score md;
                md_aggregation_score := md_aggregation_score md;
                md_best_source := md_best_source md;
                md_source_scores := md_source_scores md;
                md_field_sources := md_field_sources md;
                md_item_sources := md_item_sources md |};
           final_sources_used := final_sources_used d;
           final_blob_name := final_blob_name d |}
  end.

(** C4 as stated fails: the record carries [datetime.now()], so two merges of
    the same set, run one second apart, give different records. *)
Lemma merge_twice_differs :
  exists d1 d2,
    merge "2025-03-01T10:00:00" [Scenario.A; Scenario.B] = Aggregated d1
    /\ merge "2025-03-01T10:00:01" [Scenario.A; Scenario.B] = Aggregated d2
    /\ d1 <> d2
    /\ processing_timestamp (final_metadata d1) <> processing_timestamp (final_metadata d2).
Proof.
  eexists. eexists. split; [vm_compute; reflexivity|].
  split; [vm_compute; reflexivity|].
  split; [|vm_compute; discriminate].
  intros H. apply (f_equal (fun d => processing_timestamp (final_metadata d))) in H.
  vm_compute in H. discriminate.
Qed.

Section MergeTwice.

Context {str_methods : StrMethods}.

Lemma merge_restamp t1 t2 results :
  merge t2 results = restamp t2 (merge t1 results).
Proof.
  unfold merge. destruct (scored_results (valid_results results)); reflexivity.
Qed.

(** C4, amended. Two merges of the same list of results, at clock readings
    [t1] and [t2], give the same outcome except for
    [metadata.processing_timestamp], which is the clock reading of each run:
    the second outcome is the first one with the timestamp replaced, so the
    field values, the items, [sources_used], [field_sources] and
    [item_sources] are identical. *)
Theorem merge_twice_same_up_to_timestamp t1 t2 results :
  merge t2 results = restamp t2 (merge t1 results)
  /\ forall d1 d2,
       merge t1 results = Aggregated d1 ->
       merge t2 results = Aggregated d2 ->
       md_field_sources (final_metadata d1) = md_field_sources (final_metadata d2)
       /\ md_item_sources (final_metadata d1) = md_item_sources (final_metadata d2)
       /\ field_values (Aggregated d1) = field_values (Aggregated d2)
       /\ final_sources_used d1 = final_sources_used d2.
Proof.
  split; [apply merge_restamp|].
  intros d1 d2 H1 H2. rewrite (merge_restamp t1 t2), H1 in H2.
  injection H2 as <-. repeat split; reflexivity.
Qed.

End MergeTwice.

(** * Further properties of the code *)

(** ** The accumulator across arrivals *)

Section Accumulator.

Context {str_methods : StrMethods}.

(** [if blob_name in _accumulated_results: del _accumulated_results[blob_name]]
    (the per-receipt reset of the all-agents driver). *)
Definition reset (st : Store) (blob : string) : Store := delete blob st.

(** The store after a sequence of arrivals, each handled by
    [aggregate_results]. *)
Definition deliver (st : Store) (arrivals : list ReceiptExtractionResult) : Store :=
  List.fold_left accumulate arrivals st.

(** What the store holds for a blob. *)
Definition held (st : Store) (blob : string) : list ReceiptExtractionResult :=
  default [] (st !! blob).

(** The arrivals that belong to a blob, in arrival order. *)
Definition arrivals_for (blob : string) (arrivals : list ReceiptExtractionResult)
  : list ReceiptExtractionResult :=
  List.filter (fun r => bool_decide (blob_name r = blob)) arrivals.

(** Every held result is filed under its own blob name. *)
Definition well_filed (st : Store) : Prop :=
  forall blob r, In r (held st blob) -> blob_name r = blob.

Lemma held_accumulate st r blob :
  held (accumulate st r) blob
  = if bool_decide (blob_name r = blob) then held st blob ++ [r] else held st blob.
Proof.
  unfold held, accumulate. case_bool_decide as E.
  - subst blob. now rewrite lookup_insert_eq.
  - now rewrite lookup_insert_ne.
Qed.

Lemma held_deliver arrivals : forall st blob,
  held (deliver st arrivals) blob = held st blob ++ arrivals_for blob arrivals.
Proof.
  unfold deliver.
  induction arrivals as [|r l IH]; intros st blob; simpl.
  - now rewrite app_nil_r.
  - rewrite IH, held_accumulate. case_bool_decide; [now rewrite <- app_assoc | reflexivity].
Qed.

Lemma held_reset st blob blob' :
  held (reset st blob) blob' = if bool_decide (blob = blob') then [] else held st blob'.
Proof.
  unfold held, reset. case_bool_decide as E.
  - subst. now rewrite lookup_delete_eq.
  - now rewrite lookup_delete_ne.
Qed.

Lemma aggregate_results_held now st r :
  aggregate_results now st r
  = (accumulate st r, merge now (held st (blob_name r) ++ [r])).
Proof. apply aggregate_results_merge. Qed.

(** X1. After any sequence of arrivals the store holds, for every blob, what
    it held before followed by the arrivals of that blob in arrival order;
    and the outcome reported for a new arrival [r] is the merge of exactly
    the results held for the blob of [r], the arrivals of that blob and [r]:
    results of other blobs never take part. *)
Theorem arrivals_kept_per_blob now st arrivals r :
  (forall blob,
     held (deliver st arrivals) blob = held st blob ++ arrivals_for blob arrivals)
  /\ snd (aggregate_results now (deliver st arrivals) r)
     = merge now (held st (blob_name r) ++ arrivals_for (blob_name r) arrivals ++ [r])
  /\ forall blob, blob <> blob_name r ->
       held (fst (aggregate_results now (deliver st arrivals) r)) blob
       = held (deliver st arrivals) blob.
Proof.
  split; [intros blob; apply held_deliver|]. split.
  - rewrite aggregate_results_held. simpl. now rewrite held_deliver, <- app_assoc.
  - intros blob Hne. rewrite aggregate_results_held. simpl.
    rewrite held_accumulate. now rewrite bool_decide_eq_false_2 by congruence.
Qed.

Lemma well_filed_accumulate st r : well_filed st -> well_filed (accumulate st r).
Proof.
  intros W blob x. rewrite held_accumulate. case_bool_decide as E.
  - intros I. apply List.in_app_or in I as [I|[<-|[]]]; [now apply W | exact E].
  - apply W.
Qed.

Lemma well_filed_reset st blob : well_filed st -> well_filed (reset st blob).
Proof.
  intros W blob' x. rewrite held_reset. case_bool_decide; [intros [] | apply W].
Qed.

Lemma well_filed_empty : well_filed ∅.
Proof. intros blob r. unfold held. rewrite lookup_empty. intros []. Qed.

(** X2. Filing is an invariant: the empty store is well filed, and a reset
    or an arrival keeps a store well filed.  In a well-filed store the record
    reported for an arrival [r] carries the blob name of [r], although the
    code reads it from the first valid result held. *)
Theorem filing_invariant now st r blob :
  well_filed st ->
  well_filed (reset st blob)
  /\ well_filed (fst (aggregate_results now st r))
  /\ forall d, snd (aggregate_results now st r) = Aggregated d ->
       final_blob_name d = blob_name r.
Proof.
  intros W. split; [now apply well_filed_reset|].
  rewrite aggregate_results_held. simpl. split; [now apply well_filed_accumulate|].
  intros d Hd. destruct (merge_inv _ _ _ Hd) as (best & rest & E & ->). simpl.
  destruct (valid_results (held st (blob_name r) ++ [r])) as [|x l] eqn:V.
  - discriminate E.
  - assert (I : In x (held st (blob_name r) ++ [r])).
    { apply (proj1 (valid_results_In _ x)). rewrite V. now left. }
    apply List.in_app_or in I as [I|[<-|[]]]; [now apply W | reflexivity].
Qed.

End Accumulator.

Lemma filing_invariant_witness :
  let st : Store := {[ "r1.jpg" := [Scenario.A] ]} in
  well_filed (reset st "r2.jpg")
  /\ well_filed (fst (aggregate_results "t" st Scenario.B))
  /\ forall d, snd (aggregate_results "t" st Scenario.B) = Aggregated d ->
       final_blob_name d = blob_name Scenario.B.
Proof.
  apply (filing_invariant "t" {[ "r1.jpg" := [Scenario.A] ]} Scenario.B "r2.jpg").
  intros blob x. unfold held.
  destruct (decide (blob = "r1.jpg")) as [->|Hne].
  - rewrite lookup_singleton_eq. simpl. intros [<-|[]]. reflexivity.
  - rewrite lookup_singleton_ne by congruence. intros [].
Defined.

(** X3. After the reset of a blob, the first arrival for it is merged on its
    own: nothing held before the reset reaches the record, whatever arrived
    for other blobs in between. *)
Theorem reset_forgets {str_methods : StrMethods} now st blob arrivals r :
  blob_name r = blob ->
  arrivals_for blob arrivals = [] ->
  snd (aggregate_results now (deliver (reset st blob) arrivals) r) = merge now [r].
Proof.
  intros <- Hn. rewrite aggregate_results_held. simpl.
  rewrite held_deliver, held_reset, Hn.
  now rewrite bool_decide_eq_true_2.
Qed.

Lemma reset_forgets_witness :
  snd (aggregate_results "t"
         (deliver (reset {[ "r1.jpg" := [Scenario.A; Scenario.failed] ]} "r1.jpg") [])
         Scenario.B)
  = merge "t" [Scenario.B].
Proof.
  apply (reset_forgets "t" _ "r1.jpg" [] Scenario.B); reflexivity.
Defined.

(** ** The metadata of the final record *)

Section BestResult.

Context {str_methods : StrMethods}.

Lemma descending_head x l :
  descending (x :: l) -> forall y, In y l -> ge_score x y.
Proof.
  intros S y I. apply StronglySorted_inv in S as [_ H].
  rewrite List.Forall_forall in H. now apply H.
Qed.

(** X4. The base is a best-scoring valid result: the record reports the
    source, score, completeness and confidence of one valid result, and (no
    score being NaN) no valid result scores strictly higher. *)
Theorem best_has_top_score now results d :
  Forall (fun r => is_nan (final_score r) = false) (valid_results results) ->
  merge now results = Aggregated d ->
  exists best,
    In best (valid_results results)
    /\ md_best_source (final_metadata d) = source best
    /\ md_aggregation_score (final_metadata d) = final_score best
    /\ md_completeness_score (final_metadata d) = normalized_completeness best
    /\ md_confidence_score (final_metadata d) = confidence_of best
    /\ forall r, In r (valid_results results) ->
         (final_score best <? final_score r)%float = false.
Proof.
  intros N Hd. destruct (merge_inv _ _ _ Hd) as (best & rest & E & ->).
  exists best. split.
  { apply (proj1 (In_ranked _ _)). rewrite E. now left. }
  repeat (split; [reflexivity|]).
  intros r I. apply (proj2 (In_ranked _ _)) in I. rewrite E in I.
  destruct I as [<-|I]; [apply FloatOrder.ltb_irrefl|].
  pose proof (sort_desc_descending _ (no_nan_map_score _ N)) as S.
  fold (scored_results (valid_results results)) in S.
  rewrite scored_results_ranked, E in S. simpl in S.
  apply (descending_head _ _ S (score_result r)).
  now apply List.in_map.
Qed.

End BestResult.

Lemma best_has_top_score_witness :
  let d := match merge "t" [Scenario.B; Scenario.failed; Scenario.A] with
           | Aggregated d => d
           | NoValidResults =>
               finalize "t" [] [] (score_result Scenario.A) (seed Scenario.A)
           end in
  let results := [Scenario.B; Scenario.failed; Scenario.A] in
  exists best,
    In best (valid_results results)
    /\ md_best_source (final_metadata d) = source best
    /\ md_aggregation_score (final_metadata d) = final_score best
    /\ md_completeness_score (final_metadata d) = normalized_completeness best
    /\ md_confidence_score (final_metadata d) = confidence_of best
    /\ forall r, In r (valid_results results) ->
         (final_score best <? final_score r)%float = false.
Proof.
  apply (best_has_top_score "t" [Scenario.B; Scenario.failed; Scenario.A]).
  - vm_compute. repeat constructor.
  - vm_compute. reflexivity.
Defined.

Section SourceScores.

Context {str_methods : StrMethods}.

(** The entries of a list with a given source. *)
Definition with_source (s : string) (l : list ReceiptExtractionResult)
  : list ReceiptExtractionResult :=
  List.filter (fun r => bool_decide (source r = s)) l.

Lemma source_scores_fold sl s : forall dict : gmap string float,
  List.fold_left (fun d x => <[source (result x) := score x]> d) sl dict !! s
  = match last (List.filter (fun x => bool_decide (source (result x) = s)) sl) with
    | Some x => Some (score x)
    | None => dict !! s
    end.
Proof.
  induction sl as [|x sl IH]; intros dict; [reflexivity|].
  simpl. rewrite IH. case_bool_decide as E.
  - destruct (List.filter _ sl) as [|y l] eqn:F.
    + simpl. subst s. now rewrite lookup_insert_eq.
    + rewrite (last_cons x). destruct (last (y :: l)) eqn:La; [reflexivity|].
      apply last_None in La. discriminate.
  - destruct (last (List.filter _ sl)); [reflexivity|].
    now rewrite lookup_insert_ne.
Qed.

Lemma filter_map_score s l :
  List.filter (fun x => bool_decide (source (result x) = s)) (List.map score_result l)
  = List.map score_result (with_source s l).
Proof.
  unfold with_source. induction l as [|r l IH]; [reflexivity|].
  simpl. case_bool_decide; simpl; now rewrite IH.
Qed.

Lemma last_map {A B} (g : A -> B) (l : list A) : last (List.map g l) = g <$> last l.
Proof.
  induction l as [|x l IH]; [reflexivity|].
  simpl List.map. rewrite (last_cons (g x)), (last_cons x), IH.
  now destruct (last l).
Qed.

(** X5. [source_scores] is keyed by source: a source has an entry exactly
    when a valid result carries it, and the entry is the score of the
    lowest-ranked valid result of that source, so with a source reporting
    twice the later-ranked score is the one kept. *)
Theorem source_scores_entries now results d :
  merge now results = Aggregated d ->
  forall s,
    md_source_scores (final_metadata d) !! s
    = final_score <$> last (with_source s (ranked (valid_results results)))
    /\ (md_source_scores (final_metadata d) !! s = None
        <-> forall r, In r (valid_results results) -> source r <> s).
Proof.
  intros Hd s. destruct (merge_inv _ _ _ Hd) as (best & rest & E & ->).
  simpl md_source_scores. unfold source_scores.
  rewrite source_scores_fold, lookup_empty, scored_results_ranked, filter_map_score,
    last_map.
  set (l := with_source s (ranked (valid_results results))).
  assert (L : (last l = None) <-> forall r, In r (valid_results results) -> source r <> s).
  { rewrite last_None. unfold l, with_source. split.
    - intros F r I Hs. apply (proj2 (In_ranked _ _)) in I.
      assert (J : In r (List.filter (fun r => bool_decide (source r = s))
                          (ranked (valid_results results)))).
      { apply List.filter_In. split; [assumption | now apply bool_decide_eq_true]. }
      rewrite F in J. contradiction.
    - intros H. destruct (List.filter _ _) as [|x t] eqn:F; [reflexivity|].
      assert (J : In x (x :: t)) by now left.
      rewrite <- F in J. apply List.filter_In in J as [J1 J2].
      apply bool_decide_eq_true in J2. apply (proj1 (In_ranked _ _)) in J1.
      now destruct (H x J1). }
  destruct (last l) as [x|] eqn:La; simpl.
  - split; [reflexivity|]. split; [discriminate|].
    intros H. apply L in H. discriminate.
  - split; [reflexivity|]. split; [intros _; now apply L | reflexivity].
Qed.

End SourceScores.

Lemma source_scores_entries_witness :
  let d := match merge "t" [Tie.first; Scenario.A; Overwrite.other] with
           | Aggregated d => d
           | NoValidResults =>
               finalize "t" [] [] (score_result Scenario.A) (seed Scenario.A)
           end in
  let results := [Tie.first; Scenario.A; Overwrite.other] in
  let s := "mistral" in
  md_source_scores (final_metadata d) !! s
  = final_score <$> last (with_source s (ranked (valid_results results)))
  /\ (md_source_scores (final_metadata d) !! s = None
      <-> forall r, In r (valid_results results) -> source r <> s).
Proof.
  apply (source_scores_entries "t" [Tie.first; Scenario.A; Overwrite.other]).
  vm_compute. reflexivity.
Defined.

(** Two results of one source: the entry is the lower of the two scores. *)
Example source_scores_duplicate :
  match merge "t" [Tie.first; Scenario.A; Overwrite.other] with
  | Aggregated d =>
      (md_source_scores (final_metadata d) !! "mistral",
       final_score Overwrite.other, final_score Tie.first)
      = (Some 1.54, 1.54, 1.5699999999999998)%float
  | NoValidResults => False
  end.
Proof. vm_compute. reflexivity. Qed.

(** ** The merged item list *)

Section ItemSources.

Context {str_methods : StrMethods}.

Lemma map_keyed_snd (l : list (string * Item)) :
  List.map keyed (List.map snd l) = List.map (fun p => keyed (snd p)) l.
Proof. now rewrite List.map_map. Qed.

(** X6. [item_sources] runs parallel to the merged items: both lists have the
    same length and the entry at the position of an item records that item's
    description, so the report's fallback source "unknown" for a missing
    entry is never used.  No two merged items share a normalized
    description. *)
Theorem item_sources_parallel now results d :
  merge now results = Aggregated d ->
  List.length (md_item_sources (final_metadata d)) = List.length (final_items d)
  /\ (forall i item, final_items d !! i = Some item ->
        exists s, md_item_sources (final_metadata d) !! i = Some (attribution s item))
  /\ (forall i j a b, final_items d !! i = Some a -> final_items d !! j = Some b ->
        keyed a = keyed b -> i = j).
Proof.
  intros Hd. destruct (merge_inv _ _ _ Hd) as (best & rest & E & _).
  destruct (merge_items now results d best rest E Hd) as [Hi Hs].
  rewrite Hi, Hs. split; [now rewrite !List.length_map|]. split.
  - intros i item Hl. rewrite lookup_map in Hl.
    destruct (dedup ∅ (tagged (best :: rest)) !! i) as [[s it]|] eqn:L; [|discriminate].
    injection Hl as <-. exists s. now rewrite lookup_map, L.
  - intros i j a b Ha Hb K.
    pose proof (dedup_keys_NoDup (tagged (best :: rest)) ∅) as N.
    rewrite <- map_keyed_snd in N.
    apply (NoDup_lookup _ i j (keyed a) N); rewrite lookup_map.
    + now rewrite Ha.
    + now rewrite Hb, K.
Qed.

End ItemSources.

Lemma item_sources_parallel_witness :
  let d := match merge "t" [Coffee.low; Coffee.top] with
           | Aggregated d => d
           | NoValidResults =>
               finalize "t" [] [] (score_result Coffee.top) (seed Coffee.top)
           end in
  List.length (md_item_sources (final_metadata d)) = List.length (final_items d)
  /\ (forall i item, final_items d !! i = Some item ->
        exists s, md_item_sources (final_metadata d) !! i = Some (attribution s item))
  /\ (forall i j a b, final_items d !! i = Some a -> final_items d !! j = Some b ->
        keyed a = keyed b -> i = j).
Proof.
  apply (item_sources_parallel "t" [Coffee.low; Coffee.top]).
  vm_compute. reflexivity.
Defined.

Section ItemsAppended.

Context {str_methods : StrMethods}.

Lemma walk_items_appends rest iv :
  exists more more_src,
    all_items (walk_items iv rest) = all_items iv ++ more
    /\ item_sources (walk_items iv rest) = item_sources iv ++ more_src
    /\ forall item, In item more ->
         exists r, In r rest /\ In item (items r)
                   /\ Py.truthy (description item) = true.
Proof.
  rewrite walk_items_tagged, fold_add_tagged. simpl.
  eexists. eexists. split; [reflexivity|]. split; [reflexivity|].
  intros item I. apply List.in_map_iff in I as ([s it] & <- & I).
  apply dedup_In in I as [I (k & K & _)]. apply In_tagged in I as (r & Ir & _ & Hi).
  exists r. split; [assumption|]. split; [assumption|].
  simpl in *. unfold keyed in K.
  destruct (Py.truthy (description it)); [reflexivity | discriminate].
Qed.

(** X7. The walk only appends to the item list.  With [best :: rest] the
    ranking, the items gathered after any number [n] of walked results are an
    initial segment of the merged items, and likewise for [item_sources]; in
    particular ([n = 0]) the items kept from the base come first, in the
    base's order.  Whatever follows comes from a later result of the ranking
    and has a non-empty description. *)
Theorem items_only_appended now results d best rest n :
  ranked (valid_results results) = best :: rest ->
  merge now results = Aggregated d ->
  exists more more_src,
    final_items d = all_items (snd (walk (seed best) (firstn n rest))) ++ more
    /\ md_item_sources (final_metadata d)
       = item_sources (snd (walk (seed best) (firstn n rest))) ++ more_src
    /\ forall item, In item more ->
         exists r, In r (skipn n rest) /\ In item (items r)
                   /\ Py.truthy (description item) = true.
Proof.
  intros E Hd. rewrite merge_ranked, E in Hd. injection Hd as <-. simpl.
  assert (W : walk (seed best) rest
              = walk (walk (seed best) (firstn n rest)) (skipn n rest)).
  { unfold walk. now rewrite <- List.fold_left_app, firstn_skipn. }
  rewrite W, (walk_split (walk (seed best) (firstn n rest)) (skipn n rest)).
  simpl snd. apply walk_items_appends.
Qed.

End ItemsAppended.

Lemma items_only_appended_witness :
  let d := match merge "t" [Coffee.low; Coffee.top] with
           | Aggregated d => d
           | NoValidResults =>
               finalize "t" [] [] (score_result Coffee.top) (seed Coffee.top)
           end in
  let best := Coffee.top in
  let rest := [Coffee.low] in
  let n := 0%nat in
  exists more more_src,
    final_items d = all_items (snd (walk (seed best) (firstn n rest))) ++ more
    /\ md_item_sources (final_metadata d)
       = item_sources (snd (walk (seed best) (firstn n rest))) ++ more_src
    /\ forall item, In item more ->
         exists r, In r (skipn n rest) /\ In item (items r)
                   /\ Py.truthy (description item) = true.
Proof.
  apply (items_only_appended "t" [Coffee.low; Coffee.top] _ Coffee.top [Coffee.low] 0).
  - vm_compute. reflexivity.
  - vm_compute. reflexivity.
Defined.

(** ** A result that arrives twice *)

Section Redelivery.

Context {str_methods : StrMethods}.

(** Where a stable descending sort puts an entry that arrives last: behind
    every entry that does not score strictly less. *)
Fixpoint place_last (x : ScoredResult) (l : list ScoredResult) : list ScoredResult :=
  match l with
  | [] => [x]
  | y :: l' => if (score y <? score x)%float then x :: l else y :: place_last x l'
  end.

Lemma place_last_perm x l : Permutation (place_last x l) (x :: l).
Proof.
  induction l as [|y l IH]; simpl; [reflexivity|].
  destruct (score y <? score x)%float; [reflexivity|].
  rewrite IH. apply perm_swap.
Qed.

Lemma place_last_descending x l :
  no_nan (x :: l) -> descending l -> descending (place_last x l).
Proof.
  unfold no_nan, descending.
  induction l as [|y l IH]; simpl; intros N S.
  - repeat constructor.
  - apply Forall_cons_iff in N as [Nx N]. apply Forall_cons_iff in N as [Ny N].
    pose proof S as S'. apply StronglySorted_inv in S' as [Sl Hy].
    destruct (score y <? score x)%float eqn:E.
    + constructor; [exact S|]. constructor.
      * now apply FloatOrder.ltb_asym.
      * rewrite List.Forall_forall in Hy |- *. intros z Hz. unfold ge_score.
        destruct (score x <? score z)%float eqn:F; [|reflexivity].
        pose proof (FloatOrder.ltb_trans _ _ _ E F) as G.
        rewrite (Hy z Hz) in G. discriminate.
    + constructor.
      * apply IH; [now constructor | assumption].
      * rewrite place_last_perm. now constructor.
Qed.

Lemma filter_none {A} (p : A -> bool) (l : list A) :
  (forall z, In z l -> p z = false) -> List.filter p l = [].
Proof.
  induction l as [|y l IH]; intros H; [reflexivity|].
  simpl. rewrite (H y) by now left. apply IH. intros z Hz. apply H. now right.
Qed.

Lemma tied_app k l1 l2 : tied k (l1 ++ l2) = tied k l1 ++ tied k l2.
Proof. apply List.filter_app. Qed.

Lemma tied_place_last k x l :
  no_nan l -> descending l ->
  tied k (place_last x l) = tied k l ++ tied k [x].
Proof.
  unfold no_nan, descending.
  induction l as [|y l IH]; intros N S; [reflexivity|].
  apply Forall_cons_iff in N as [Ny N].
  pose proof S as S'. apply StronglySorted_inv in S' as [Sl Hy].
  simpl place_last. destruct (score y <? score x)%float eqn:E.
  - change (x :: y :: l) with ([x] ++ (y :: l)). rewrite tied_app.
    simpl (tied k [x]). destruct (score x =? k)%float eqn:Ex;
      [|now rewrite app_nil_r].
    assert (T : tied k (y :: l) = []).
    { unfold tied. apply filter_none.
      rewrite List.Forall_forall in Hy, N. intros z [<-|Hz].
      - destruct (score y =? k)%float eqn:Ey; [|reflexivity].
        rewrite (FloatOrder.eqb_eqb_not_ltb _ _ _ Ey Ex) in E. discriminate.
      - destruct (score z =? k)%float eqn:Ez; [|reflexivity].
        pose proof (FloatOrder.eqb_eqb_not_ltb _ _ _ Ez Ex) as Zx.
        rewrite (FloatOrder.ltb_negtrans _ _ _ (N z Hz) (Hy z Hz) Zx) in E.
        discriminate. }
    now rewrite T.
  - change (y :: place_last x l) with ([y] ++ place_last x l).
    change (y :: l) with ([y] ++ l).
    rewrite !tied_app, (IH N Sl), app_assoc. reflexivity.
Qed.

(** The ranking after one more arrival. *)
Lemma sort_desc_snoc l x :
  no_nan (l ++ [x]) -> sort_desc (l ++ [x]) = place_last x (sort_desc l).
Proof.
  intros N.
  assert (Nl : no_nan l) by (apply Forall_app in N; tauto).
  assert (Nx : is_nan (score x) = false).
  { apply Forall_app in N as [_ N]. now apply Forall_cons_iff in N as [N _]. }
  assert (Ns : no_nan (sort_desc l))
    by (eapply no_nan_perm; [symmetry; apply sort_desc_perm | assumption]).
  apply descending_unique.
  - eapply no_nan_perm; [symmetry; apply sort_desc_perm | assumption].
  - eapply no_nan_perm; [symmetry; apply place_last_perm | now constructor].
  - now apply sort_desc_descending.
  - apply place_last_descending; [now constructor | now apply sort_desc_descending].
  - intros k. rewrite tied_sort_desc, tied_app, tied_place_last, tied_sort_desc;
      [reflexivity | assumption | now apply sort_desc_descending].
Qed.

Lemma place_last_split x l :
  exists a b, l = a ++ b /\ place_last x l = a ++ x :: b.
Proof.
  induction l as [|y l (a & b & -> & H)]; simpl.
  - now exists [], [].
  - destruct (score y <? score x)%float.
    + now exists [], (y :: a ++ b).
    + exists (y :: a), b. now rewrite H.
Qed.

(** An entry that arrives again is ranked behind its earlier copy. *)
Lemma place_last_behind x p q :
  descending (p ++ x :: q) ->
  place_last x (p ++ x :: q) = p ++ x :: place_last x q.
Proof.
  induction p as [|y p IH]; simpl; intros S.
  - now rewrite FloatOrder.ltb_irrefl.
  - pose proof S as S'. apply StronglySorted_inv in S' as [Sp Hy].
    rewrite List.Forall_forall in Hy.
    assert (G : ge_score y x) by (apply Hy, List.in_elt).
    unfold ge_score in G. rewrite G. now rewrite IH.
Qed.

(** A result is absorbed by the merge variables when every field it supplies
    is already set and every key of its items has been seen. *)
Definition absorbed (r : ReceiptExtractionResult) (m : MergeVars) : Prop :=
  (forall f, supplies f r = true -> is_set (var_of f (fst m)) = true)
  /\ keys_of (tagged [r]) ⊆ seen_item_descriptions (snd m).

Lemma fill_block_noop g r v :
  negb (is_set (var_of g v)) && supplies g r = false -> fill_block g r v = v.
Proof.
  unfold supplies. destruct g; simpl;
    unfold fill_merchant_name, fill_transaction_date, fill_transaction_time,
      fill_total_amount, fill_currency; intros ->; reflexivity.
Qed.

Lemma fill_gaps_noop r v :
  (forall f, supplies f r = true -> is_set (var_of f v) = true) -> fill_gaps r v = v.
Proof.
  intros H. rewrite fill_gaps_blocks.
  assert (B : forall g, fill_block g r v = v).
  { intros g. apply fill_block_noop. destruct (supplies g r) eqn:S.
    - now rewrite (H g S).
    - apply andb_false_r. }
  now rewrite !B.
Qed.

Lemma dedup_all_seen l : forall seen, keys_of l ⊆ seen -> dedup seen l = [].
Proof.
  induction l as [|p l IH]; intros seen H; [reflexivity|].
  rewrite keys_of_cons in H. simpl.
  destruct (keyed (snd p)) as [k|]; [|now apply IH].
  rewrite bool_decide_eq_true_2 by set_solver. apply IH. set_solver.
Qed.

Lemma tagged_single r :
  tagged [r] = List.map (fun item => (source r, item)) (items r).
Proof. unfold tagged. simpl. apply app_nil_r. Qed.

Lemma add_items_vars r iv :
  add_items r iv
  = {| all_items := all_items iv
                      ++ List.map snd (dedup (seen_item_descriptions iv) (tagged [r]));
       seen_item_descriptions := seen_item_descriptions iv ∪ keys_of (tagged [r]);
       item_sources :=
         item_sources iv
           ++ List.map (fun p => attribution (fst p) (snd p))
                (dedup (seen_item_descriptions iv) (tagged [r])) |}.
Proof. now rewrite add_items_tagged, fold_add_tagged, tagged_single. Qed.

Lemma add_items_noop r iv :
  keys_of (tagged [r]) ⊆ seen_item_descriptions iv -> add_items r iv = iv.
Proof.
  intros H. rewrite add_items_vars, (dedup_all_seen _ _ H).
  destruct iv as [a s i].
  cbn [all_items seen_item_descriptions item_sources List.map] in *.
  rewrite !app_nil_r. f_equal. rewrite union_comm_L. now apply subseteq_union_1_L.
Qed.

Lemma merge_step_noop m r : absorbed r m -> merge_step m r = m.
Proof.
  intros [Hf Hi]. unfold merge_step.
  rewrite (fill_gaps_noop _ _ Hf), (add_items_noop _ _ Hi). now destruct m.
Qed.

Lemma absorbed_step r m r' : absorbed r m -> absorbed r (merge_step m r').
Proof.
  intros [Hf Hi]. split; simpl.
  - intros f S. rewrite fill_gaps_var, (Hf f S). simpl. now apply Hf.
  - rewrite add_items_vars. simpl. set_solver.
Qed.

Lemma absorbed_after m r : absorbed r (merge_step m r).
Proof.
  split; simpl.
  - intros f S. rewrite fill_gaps_var, S.
    destruct (is_set (var_of f (fst m))) eqn:V; simpl; [exact V | exact S].
  - rewrite add_items_vars. simpl. set_solver.
Qed.

Lemma absorbed_seed r : absorbed r (seed r).
Proof.
  split; simpl.
  - intros f S. now rewrite seed_var.
  - rewrite add_items_vars. simpl. set_solver.
Qed.

Lemma absorbed_walk r l : forall m, absorbed r m -> absorbed r (walk m l).
Proof.
  induction l as [|x l IH]; intros m H; [exact H|].
  apply (IH (merge_step m x)). now apply absorbed_step.
Qed.

(** Walking an absorbed result once more changes nothing. *)
Lemma walk_absorbed r a b : forall m,
  absorbed r m -> walk m (a ++ r :: b) = walk m (a ++ b).
Proof.
  induction a as [|x a IH]; intros m H.
  - simpl. unfold walk. simpl. now rewrite merge_step_noop.
  - apply (IH (merge_step m x)). now apply absorbed_step.
Qed.

Lemma walk_app m l1 l2 : walk m (l1 ++ l2) = walk (walk m l1) l2.
Proof. unfold walk. apply List.fold_left_app. Qed.

Lemma walk_repeated r p a b m :
  walk m (p ++ r :: a ++ r :: b) = walk m (p ++ r :: a ++ b).
Proof.
  rewrite (walk_app m p (r :: a ++ r :: b)), (walk_app m p (r :: a ++ b)).
  change (r :: a ++ r :: b) with ([r] ++ (a ++ r :: b)).
  change (r :: a ++ b) with ([r] ++ (a ++ b)).
  rewrite (walk_app _ [r] (a ++ r :: b)), (walk_app _ [r] (a ++ b)).
  apply walk_absorbed. exact (absorbed_after (walk m p) r).
Qed.

(** What the merge shows of values and attributions. *)
Definition merged_content (o : Outcome)
  : option ((string * string * option string * float * string * list Item)
            * gmap string (option string) * list ItemSource) :=
  match o with
  | NoValidResults => None
  | Aggregated d =>
      Some ((final_merchant_name d, final_transaction_date d, final_transaction_time d,
             final_total_amount d, final_currency d, final_items d),
            md_field_sources (final_metadata d), md_item_sources (final_metadata d))
  end.

Lemma merged_content_walk now valid sl top m :
  merged_content (Aggregated (finalize now valid sl top m))
  = merged_content (Aggregated (finalize now [] [] top m)).
Proof. reflexivity. Qed.

(** X8. A result that is delivered again (a retried source) changes neither a
    field value, nor the items, nor an attribution: no score being NaN, the
    merge of the held results followed by a copy of one of them shows the
    same content as the merge of the held results. *)
Theorem redelivery_changes_nothing now results r :
  In r results ->
  Forall (fun x => is_nan (final_score x) = false) (valid_results results) ->
  merged_content (merge now (results ++ [r])) = merged_content (merge now results).
Proof.
  intros I N. destruct (is_valid r) eqn:Vr.
  2:{ unfold merge, valid_results. rewrite List.filter_app. simpl.
      rewrite Vr, app_nil_r. reflexivity. }
  assert (V : valid_results (results ++ [r]) = valid_results results ++ [r]).
  { unfold valid_results. rewrite List.filter_app. simpl. now rewrite Vr. }
  assert (Ir : In r (valid_results results)) by now apply valid_results_In.
  set (S := scored_results (valid_results results)).
  assert (NS : no_nan (List.map score_result (valid_results results)))
    by now apply no_nan_map_score.
  assert (D : descending S) by now apply sort_desc_descending.
  assert (S' : scored_results (valid_results results ++ [r])
               = place_last (score_result r) S).
  { unfold scored_results. rewrite List.map_app. simpl. apply sort_desc_snoc.
    apply Forall_app. split; [assumption|]. constructor; [|constructor].
    rewrite List.Forall_forall in N. now apply N. }
  assert (Is : In (score_result r) S).
  { apply (Permutation_in _ (Permutation_sym (sort_desc_perm _))).
    now apply List.in_map. }
  apply List.in_split in Is as (p & q & Hs).
  rewrite Hs in D. pose proof (place_last_behind _ _ _ D) as B.
  destruct (place_last_split (score_result r) q) as (a & b & -> & Hq).
  rewrite Hq in B.
  unfold merge. rewrite V, S'. fold S. rewrite Hs, B.
  destruct p as [|top p]; simpl.
  - rewrite !List.map_app. simpl. f_equal.
    now rewrite (walk_absorbed r _ _ _ (absorbed_seed r)).
  - rewrite !List.map_app. simpl. rewrite !List.map_app. simpl.
    now rewrite walk_repeated.
Qed.

End Redelivery.

Lemma redelivery_changes_nothing_witness :
  merged_content (merge "t" ([Scenario.B; Scenario.A; Overwrite.other] ++ [Scenario.B]))
  = merged_content (merge "t" [Scenario.B; Scenario.A; Overwrite.other]).
Proof.
  apply redelivery_changes_nothing.
  - now left.
  - vm_compute. repeat constructor.
Defined.

(** ** Routing on the quality assessment *)

(** [class ImageQualityAssessment(BaseModel)] *)
Module Assessment.
Record t := {
  quality : string;
  confidence_score : float;
  reasoning : string;
  image_data : string;
  blob_name : string
}.
End Assessment.

(** What an edge condition is called with: an [AgentExecutorResponse], of
    which only [agent_run_response.text] is read, or anything else. *)
Inductive Message :=
  | AgentExecutorResponse (text : string)
  | OtherMessage.

(** The executors behind the three conditional edges of the workflow. *)
Inductive Branch :=
  | to_mistral_request
  | to_document_intelligence_request
  | to_multi_agent_request.

Section Routing.

(** [ImageQualityAssessment.model_validate_json]; [None] when it raises. *)
Variable model_validate_json : string -> option Assessment.t.

(** [get_quality_condition(expected_quality)] *)
Definition get_quality_condition (expected_quality : string) (message : Message) : bool :=
  match message with
  | OtherMessage => true
  | AgentExecutorResponse text =>
      match model_validate_json text with
      | Some assessment => bool_decide (Assessment.quality assessment = expected_quality)
      | None => false
      end
  end.

(** The conditional edges out of the quality assessor, as [main] adds them. *)
Definition quality_edges : list (string * Branch) :=
  [ ("clear", to_mistral_request);
    ("blurry", to_document_intelligence_request);
    ("uncertain", to_multi_agent_request) ].

(** The branches whose condition accepts the message. *)
Definition branches_taken (message : Message) : list Branch :=
  List.map snd
    (List.filter (fun e => get_quality_condition (fst e) message) quality_edges).

(** X9. A reply of the quality assessor takes at most one branch: "clear"
    goes to the Mistral request, "blurry" to the Document Intelligence
    request, "uncertain" to the multi-agent request; a reply that does not
    parse, or whose quality is any other string (the comparison is exact, so
    "Clear" too), takes no branch.  A message that is not an assessor reply
    passes every condition. *)
Theorem quality_branches message :
  branches_taken message
  = match message with
    | OtherMessage =>
        [to_mistral_request; to_document_intelligence_request; to_multi_agent_request]
    | AgentExecutorResponse text =>
        match model_validate_json text with
        | None => []
        | Some assessment =>
            if String.eqb (Assessment.quality assessment) "clear"
            then [to_mistral_request]
            else if String.eqb (Assessment.quality assessment) "blurry"
            then [to_document_intelligence_request]
            else if String.eqb (Assessment.quality assessment) "uncertain"
            then [to_multi_agent_request]
            else []
        end
    end.
Proof.
  unfold branches_taken, quality_edges. destruct message as [text|]; [|reflexivity].
  simpl. destruct (model_validate_json text) as [a|]; [|reflexivity].
  destruct (String.eqb_spec (Assessment.quality a) "clear") as [->|H1]; [reflexivity|].
  rewrite (bool_decide_eq_false_2 _ H1).
  destruct (String.eqb_spec (Assessment.quality a) "blurry") as [->|H2]; [reflexivity|].
  rewrite (bool_decide_eq_false_2 _ H2).
  destruct (String.eqb_spec (Assessment.quality a) "uncertain") as [->|H3]; [reflexivity|].
  now rewrite (bool_decide_eq_false_2 _ H3).
Qed.

End Routing.

(** ** Request texts and the blob name read back from them *)

(** More of Python's [str], for non-empty separators. *)
Module Str.

(** The line feed ["\n"]. *)
Definition LF : string := String (ascii_of_nat 10) EmptyString.

(** Does [s] start with [p]? ([s.startswith(p)]) *)
Fixpoint starts_with (p s : string) : bool :=
  match p with
  | EmptyString => true
  | String a p' =>
      match s with
      | EmptyString => false
      | String b s' => Ascii.eqb a b && starts_with p' s'
      end
  end.

(** [sub in s] *)
Fixpoint contains (sub s : string) : bool :=
  starts_with sub s
  || match s with
     | EmptyString => false
     | String _ s' => contains sub s'
     end.

(** [s.split(sep)] scanned left to right: [skip] counts the characters of a
    separator just matched that are still to be passed, [acc] is the piece
    being read. *)
Fixpoint split_go (sep s : string) (skip : nat) (acc : string) : list string :=
  match s with
  | EmptyString => [acc]
  | String c s' =>
      match skip with
      | S k => split_go sep s' k acc
      | O =>
          if starts_with sep s
          then acc :: split_go sep s' (String.length sep - 1) EmptyString
          else split_go sep s' 0 (acc ++ String c EmptyString)
      end
  end.

(** [s.split(sep)] *)
Definition split (sep s : string) : list string := split_go sep s 0 EmptyString.

(** [s[:n]] *)
Fixpoint slice_to (n : nat) (s : string) : string :=
  match n, s with
  | S k, String c s' => String c (slice_to k s')
  | _, _ => EmptyString
  end.

(** [l[i]] for an index the code has made sure exists. *)
Definition item (i : nat) (l : list string) : string := List.nth i l EmptyString.

End Str.

(** [message_text.split(": ")[1].split("\n")[0] if ": " in message_text
    else "unknown"]: the blob name as the three processors read it. *)
Definition message_blob_name (message_text : string) : string :=
  if Str.contains ": " message_text
  then Str.item 0 (Str.split Str.LF (Str.item 1 (Str.split ": " message_text)))
  else "unknown".

(** The text [to_document_intelligence_request] sends. *)
Definition to_document_intelligence_request_text (assessment : Assessment.t) : string :=
  "Process this blurry receipt image: " ++ Assessment.blob_name assessment
    ++ Str.LF ++ "Image data: " ++ Str.slice_to 100 (Assessment.image_data assessment)
    ++ "...".

(** The text [to_mistral_request] sends. *)
Definition to_mistral_request_text (assessment : Assessment.t) : string :=
  "Process this clear receipt image: " ++ Assessment.blob_name assessment
    ++ Str.LF ++ "Image data: " ++ Str.slice_to 100 (Assessment.image_data assessment)
    ++ "...".

(** The text of each of the three requests [to_multi_agent_request] sends. *)
Definition to_multi_agent_request_text (assessment : Assessment.t) : string :=
  "Process this uncertain quality receipt image: " ++ Assessment.blob_name assessment
    ++ Str.LF ++ "Image data: " ++ Str.slice_to 100 (Assessment.image_data assessment)
    ++ "...".




Section StrFacts.

Local Open Scope string_scope.
Implicit Types (s p a b sep acc : string).

Lemma append_cons c a b : String c a ++ b = String c (a ++ b).
Proof. reflexivity. Qed.

Lemma append_nil_l s : "" ++ s = s.
Proof. reflexivity. Qed.

Lemma append_nil_r s : s ++ "" = s.
Proof.
  induction s as [|c s IH]; [reflexivity|]. now rewrite append_cons, IH.
Qed.

Lemma append_assoc a b s : (a ++ b) ++ s = a ++ (b ++ s).
Proof.
  induction a as [|c a IH]; [reflexivity|]. now rewrite !append_cons, IH.
Qed.

Lemma starts_with_app p s : Str.starts_with p (p ++ s) = true.
Proof.
  induction p as [|c p IH]; [reflexivity|].
  rewrite append_cons. simpl. now rewrite Ascii.eqb_refl, IH.
Qed.

Lemma starts_with_inv p : forall s,
  Str.starts_with p s = true -> exists t, s = p ++ t.
Proof.
  induction p as [|c p IH]; intros s; simpl.
  - intros _. now exists s.
  - destruct s as [|d s]; [discriminate|]. intros H.
    apply andb_true_iff in H as [E H]. apply Ascii.eqb_eq in E as ->.
    destruct (IH s H) as [t ->]. now exists t.
Qed.

Lemma contains_here sub s : Str.starts_with sub s = true -> Str.contains sub s = true.
Proof. intros H. destruct s; simpl in *; now rewrite H. Qed.

Lemma contains_later sub c s : Str.contains sub s = true -> Str.contains sub (String c s) = true.
Proof. intros H. simpl. rewrite H. apply orb_true_r. Qed.

Lemma contains_spec sub s :
  Str.contains sub s = true <-> exists a b, s = a ++ sub ++ b.
Proof.
  split.
  - induction s as [|c s IH]; simpl; intros H.
    + rewrite orb_false_r in H. apply starts_with_inv in H as [t Ht].
      now exists "", t.
    + apply orb_true_iff in H as [H|H].
      * apply starts_with_inv in H as [t Ht]. now exists "", t.
      * destruct (IH H) as (a & b & ->). now exists (String c a), b.
  - intros (a & b & ->). induction a as [|c a IH].
    + rewrite append_nil_l. apply contains_here, starts_with_app.
    + rewrite append_cons. now apply contains_later.
Qed.



(** No occurrence of [sep] starts inside [a] when [a] is followed by [b]. *)
Fixpoint clear_before (sep a b : string) : bool :=
  match a with
  | EmptyString => true
  | String c a' => negb (Str.starts_with sep (a ++ b)) && clear_before sep a' b
  end.

Lemma split_go_skip sep p : forall s acc,
  Str.split_go sep (p ++ s) (String.length p) acc = Str.split_go sep s 0 acc.
Proof.
  induction p as [|c p IH]; intros s acc.
  - rewrite append_nil_l. destruct s; reflexivity.
  - rewrite append_cons. simpl. apply IH.
Qed.

Lemma split_go_match sep s acc :
  sep <> "" ->
  Str.split_go sep (sep ++ s) 0 acc = acc :: Str.split_go sep s 0 "".
Proof.
  destruct sep as [|c sep]; [congruence|]. intros _.
  pose proof (starts_with_app (String c sep) s) as P.
  rewrite append_cons in P |- *.
  cbn [Str.split_go]. rewrite P.
  replace (String.length (String c sep) - 1) with (String.length sep)
    by (simpl; lia).
  now rewrite split_go_skip.
Qed.

Lemma split_go_pass sep a : forall b acc,
  clear_before sep a b = true ->
  Str.split_go sep (a ++ b) 0 acc = Str.split_go sep b 0 (acc ++ a).
Proof.
  induction a as [|c a IH]; intros b acc H.
  - now rewrite append_nil_l, append_nil_r.
  - cbn [clear_before] in H. apply andb_true_iff in H as [H1 H2].
    apply negb_true_iff in H1. rewrite append_cons in H1 |- *.
    cbn [Str.split_go]. rewrite H1, (IH b _ H2), append_assoc. reflexivity.
Qed.

(** The piece being read is the start of the next element. *)
Lemma split_go_head sep s : forall skip acc,
  exists x l, Str.split_go sep s skip acc = (acc ++ x) :: l.
Proof.
  induction s as [|c s IH]; intros skip acc; cbn [Str.split_go].
  - exists "", []. now rewrite append_nil_r.
  - destruct skip as [|k]; [|apply IH].
    destruct (Str.starts_with sep (String c s)).
    + eexists "", _. now rewrite append_nil_r.
    + destruct (IH 0 (acc ++ String c "")) as (x & l & ->).
      exists (String c x), l. now rewrite append_assoc.
Qed.

Lemma contains_cons_false sub c s :
  Str.contains sub (String c s) = false ->
  Str.starts_with sub (String c s) = false /\ Str.contains sub s = false.
Proof. simpl. intros H. now apply orb_false_iff in H. Qed.

Lemma clear_before_end sep a :
  Str.contains sep a = false -> clear_before sep a "" = true.
Proof.
  induction a as [|c a IH]; [reflexivity|]. intros H.
  apply contains_cons_false in H as [H1 H2].
  cbn [clear_before]. rewrite append_nil_r, H1. simpl. now apply IH.
Qed.

(** A one-character separator cannot straddle the end of [a]. *)
Lemma clear_before_char c a b :
  Str.contains (String c "") a = false -> clear_before (String c "") a b = true.
Proof.
  induction a as [|d a IH]; [reflexivity|]. intros H.
  apply contains_cons_false in H as [H1 H2].
  cbn [clear_before]. rewrite (IH H2), andb_true_r, append_cons.
  cbn [Str.starts_with] in H1 |- *.
  destruct (Ascii.eqb c d); [discriminate H1 | reflexivity].
Qed.

(** [": "] cannot straddle the end of [a] when the next character is no
    space. *)
Lemma clear_before_colon a c b :
  Str.contains ": " a = false -> c <> " "%char ->
  clear_before ": " a (String c b) = true.
Proof.
  intros H Hc. induction a as [|d a IH]; [reflexivity|].
  apply contains_cons_false in H as [H1 H2].
  cbn [clear_before]. rewrite (IH H2), andb_true_r, append_cons.
  cbn [Str.starts_with] in H1 |- *.
  destruct (Ascii.eqb ":" d) eqn:E; [|reflexivity].
  rewrite andb_true_l in H1 |- *.
  destruct a as [|e a].
  - rewrite append_nil_l. apply negb_true_iff.
    rewrite andb_true_r. now apply Ascii.eqb_neq, not_eq_sym.
  - rewrite append_cons. now rewrite H1.
Qed.

End StrFacts.

Section Messages.

Local Open Scope string_scope.
Implicit Types (prefix name rest tail : string).

(** What may follow the name in a request text: the end of the text, a line
    feed or the next [": "]. *)
Definition ends_name (rest : string) : Prop :=
  rest = "" \/ (exists tail, rest = Str.LF ++ tail) \/ (exists tail, rest = ": " ++ tail).

Lemma first_piece_colon prefix rest :
  Str.contains ": " prefix = false ->
  Str.split ": " (prefix ++ ": " ++ rest) = prefix :: Str.split ": " rest.
Proof.
  intros H. unfold Str.split.
  rewrite split_go_pass by now apply clear_before_colon.
  rewrite append_nil_l. now apply split_go_match.
Qed.

Lemma name_piece_colon name rest :
  Str.contains ": " name = false -> ends_name rest ->
  exists x l, Str.split ": " (name ++ rest) = (name ++ x) :: l
              /\ (x = "" \/ exists y, x = Str.LF ++ y).
Proof.
  intros H [->|[[tail ->]|[tail ->]]]; unfold Str.split.
  - rewrite split_go_pass by now apply clear_before_end.
    rewrite append_nil_l. cbn [Str.split_go].
    exists "", []. rewrite append_nil_r. split; [reflexivity | now left].
  - rewrite split_go_pass by now apply clear_before_colon.
    rewrite append_nil_l.
    change (Str.LF ++ tail) with (String (ascii_of_nat 10) tail).
    cbn [Str.split_go]. change (Str.starts_with ": " (String (ascii_of_nat 10) tail))
      with false. cbv iota.
    fold Str.LF.
    destruct (split_go_head ": " tail 0 (name ++ Str.LF)) as (x & l & ->).
    exists (Str.LF ++ x), l. rewrite append_assoc. split; [reflexivity | right; eauto].
  - rewrite split_go_pass by now apply clear_before_colon.
    rewrite append_nil_l, split_go_match by discriminate.
    eexists "", _. rewrite append_nil_r. split; [reflexivity | now left].
Qed.

Lemma first_line name x :
  Str.contains Str.LF name = false ->
  (x = "" \/ exists y, x = Str.LF ++ y) ->
  Str.item 0 (Str.split Str.LF (name ++ x)) = name.
Proof.
  intros H [->|[y ->]]; unfold Str.split.
  - rewrite split_go_pass by now apply clear_before_end. reflexivity.
  - rewrite split_go_pass by now apply clear_before_char.
    rewrite append_nil_l, split_go_match by discriminate. reflexivity.
Qed.

(** The name a processor reads is the text between the first [": "] of the
    request and whatever ends it. *)
Lemma message_blob_name_reads prefix name rest :
  Str.contains ": " prefix = false ->
  Str.contains ": " name = false ->
  Str.contains Str.LF name = false ->
  ends_name rest ->
  message_blob_name (prefix ++ ": " ++ name ++ rest) = name.
Proof.
  intros Hp Hn Hl Hr. unfold message_blob_name.
  assert (C : Str.contains ": " (prefix ++ ": " ++ name ++ rest) = true)
    by (apply contains_spec; eauto).
  rewrite C, first_piece_colon by assumption.
  destruct (name_piece_colon name rest Hn Hr) as (x & l & -> & Hx).
  unfold Str.item at 2. simpl List.nth. now apply first_line.
Qed.

(** X10. The request texts and the processors agree on the blob name: for a
    blob name without [": "] and without a line feed, the name read back from
    the text of [to_document_intelligence_request], of [to_mistral_request]
    and of [to_multi_agent_request] is the blob name of the assessment,
    whatever the image data. *)
Theorem request_round_trip (assessment : Assessment.t) :
  Str.contains ": " (Assessment.blob_name assessment) = false ->
  Str.contains Str.LF (Assessment.blob_name assessment) = false ->
  message_blob_name (to_document_intelligence_request_text assessment)
    = Assessment.blob_name assessment
  /\ message_blob_name (to_mistral_request_text assessment)
     = Assessment.blob_name assessment
  /\ message_blob_name (to_multi_agent_request_text assessment)
     = Assessment.blob_name assessment.
Proof.
  intros Hn Hl.
  assert (E : forall tail, ends_name (Str.LF ++ tail)) by (right; left; eauto).
  repeat split.
  - apply (message_blob_name_reads "Process this blurry receipt image"); auto.
  - apply (message_blob_name_reads "Process this clear receipt image"); auto.
  - apply (message_blob_name_reads "Process this uncertain quality receipt image"); auto.
Qed.

End Messages.

Module Requests.
Definition assessment : Assessment.t :=
  {| Assessment.quality := "blurry";
     Assessment.confidence_score := 0.4%float;
     Assessment.reasoning := "out of focus: text unreadable";
     Assessment.image_data := "/9j/4AAQSkZJRgABAQ: AAAQABAAD";
     Assessment.blob_name := "receipts/2025/r1.jpg" |}.
End Requests.

Lemma request_round_trip_witness :
  message_blob_name (to_document_intelligence_request_text Requests.assessment)
    = Assessment.blob_name Requests.assessment
  /\ message_blob_name (to_mistral_request_text Requests.assessment)
     = Assessment.blob_name Requests.assessment
  /\ message_blob_name (to_multi_agent_request_text Requests.assessment)
     = Assessment.blob_name Requests.assessment.
Proof.
  apply request_round_trip; reflexivity.
Defined.

Section Pipeline.

Local Open Scope string_scope.

(** X11. A blob name that contains [": "] or a line feed does not survive the
    request text: the processors read only what precedes the first of them. *)
Theorem request_name_cut (assessment : Assessment.t) (a sep b : string) :
  Assessment.blob_name assessment = a ++ sep ++ b ->
  sep = ": " \/ sep = Str.LF ->
  Str.contains ": " a = false ->
  Str.contains Str.LF a = false ->
  message_blob_name (to_document_intelligence_request_text assessment) = a
  /\ message_blob_name (to_mistral_request_text assessment) = a
  /\ message_blob_name (to_multi_agent_request_text assessment) = a.
Proof.
  intros Hb Hsep Ha Hl.
  unfold to_document_intelligence_request_text, to_mistral_request_text,
    to_multi_agent_request_text.
  rewrite Hb, !append_assoc.
  assert (E : forall tail, ends_name (sep ++ tail)).
  { intros tail. destruct Hsep as [->| ->]; [right; right | right; left]; eauto. }
  repeat split.
  - apply (message_blob_name_reads "Process this blurry receipt image"); auto.
  - apply (message_blob_name_reads "Process this clear receipt image"); auto.
  - apply (message_blob_name_reads "Process this uncertain quality receipt image"); auto.
Qed.






End Pipeline.

Lemma request_name_cut_witness :
  message_blob_name (to_document_intelligence_request_text
    {| Assessment.quality := "blurry"; Assessment.confidence_score := 0.4%float;
       Assessment.reasoning := ""; Assessment.image_data := "";
       Assessment.blob_name := ("scan" ++ ": " ++ "page 1.png")%string |}) = "scan"
  /\ message_blob_name (to_mistral_request_text
    {| Assessment.quality := "blurry"; Assessment.confidence_score := 0.4%float;
       Assessment.reasoning := ""; Assessment.image_data := "";
       Assessment.blob_name := ("scan" ++ ": " ++ "page 1.png")%string |}) = "scan"
  /\ message_blob_name (to_multi_agent_request_text
    {| Assessment.quality := "blurry"; Assessment.confidence_score := 0.4%float;
       Assessment.reasoning := ""; Assessment.image_data := "";
       Assessment.blob_name := ("scan" ++ ": " ++ "page 1.png")%string |}) = "scan".
Proof.
  apply (request_name_cut _ "scan" ": " "page 1.png");
    [reflexivity | now left | reflexivity | reflexivity].
Defined.


(** ** The ranking as a sort *)

Lemma same_score_ranked k valid :
  same_score k (ranked valid) = same_score k valid.
Proof.
  unfold ranked, scored_results.
  assert (M : forall sl, Forall (fun s => score s = final_score (result s)) sl ->
            same_score k (List.map result sl) = List.map result (tied k sl)).
  { induction 1 as [|s sl Hs _ IH]; [reflexivity|].
    unfold same_score, tied in *. simpl. rewrite <- Hs.
    destruct (score s =? k)%float; simpl; now rewrite IH. }
  rewrite M.
  - rewrite tied_sort_desc, tied_map_score. apply map_result_score.
  - rewrite (sort_desc_perm (List.map score_result valid)).
    apply List.Forall_forall. intros s Hs.
    apply List.in_map_iff in Hs as (r & <- & _). reflexivity.
Qed.

(** X13. The ranking lists every valid result exactly once: it is a
    permutation of them.  When no score is NaN it is the stable descending
    sort: results of equal score keep their arrival order, and scores never
    increase along the ranking. *)
Theorem ranking_sorts valid :
  Permutation (ranked valid) valid
  /\ (Forall (fun r => is_nan (final_score r) = false) valid ->
      (forall k, same_score k (ranked valid) = same_score k valid)
      /\ (forall i j a b, (i < j)%nat ->
            ranked valid !! i = Some a -> ranked valid !! j = Some b ->
            (final_score a <? final_score b)%float = false)).
Proof.
  split; [apply ranked_perm|].
  intros N. split; [intros k; apply same_score_ranked|].
  intros i j a b Hij Ha Hb.
  pose proof (sort_desc_descending _ (no_nan_map_score _ N)) as S.
  fold (scored_results valid) in S. rewrite scored_results_ranked in S.
  revert i j a b Hij Ha Hb S. generalize (ranked valid). clear.
  induction l as [|x l IH]; intros i j a b Hij Ha Hb S; [discriminate|].
  simpl in S. apply StronglySorted_inv in S as [S Hx].
  destruct j as [|j]; [lia|]. simpl in Hb.
  destruct i as [|i].
  - injection Ha as <-. rewrite List.Forall_forall in Hx.
    apply (Hx (score_result b)). apply List.in_map.
    apply list_elem_of_In, list_elem_of_lookup. eauto.
  - simpl in Ha. apply (IH i j a b); [lia | assumption | assumption | assumption].
Qed.

Lemma ranking_sorts_witness :
  let valid := [Scenario.B; Tie.first; Scenario.A; Tie.second] in
  Forall (fun r => is_nan (final_score r) = false) valid
  /\ Permutation (ranked valid) valid
  /\ (forall k, same_score k (ranked valid) = same_score k valid)
  /\ (forall i j a b, (i < j)%nat ->
        ranked valid !! i = Some a -> ranked valid !! j = Some b ->
        (final_score a <? final_score b)%float = false).
Proof.
  assert (N : Forall (fun r => is_nan (final_score r) = false)
                [Scenario.B; Tie.first; Scenario.A; Tie.second])
    by (vm_compute; repeat constructor).
  destruct (ranking_sorts [Scenario.B; Tie.first; Scenario.A; Tie.second]) as [P Q].
  split; [exact N|]. split; [exact P|]. exact (Q N).
Defined.

(** ** File names of the outputs *)

(** [s.replace(old, new)] for one-character [old] and [new]. *)
Fixpoint replace_char (old new : ascii) (s : string) : string :=
  match s with
  | EmptyString => EmptyString
  | String c s' => String (if Ascii.eqb c old then new else c) (replace_char old new s')
  end.

(** [blob_name.replace('/', '_').replace('\\', '_').replace('.', '_')]:
    the stem of the files [aggregate_results] writes. *)
Definition safe_blob_name (blob_name : string) : string :=
  replace_char "." "_" (replace_char "\" "_" (replace_char "/" "_" blob_name)).

(** [safe_filename] of the utilities:
    [value.replace('/', '_').replace('\\', '_').replace(':', '_')]. *)
Definition safe_filename (value : string) : string :=
  replace_char ":" "_" (replace_char "\" "_" (replace_char "/" "_" value)).

(** [c in s] for a character. *)
Fixpoint has_char (c : ascii) (s : string) : bool :=
  match s with
  | EmptyString => false
  | String d s' => Ascii.eqb d c || has_char c s'
  end.

Section FileNames.

Local Open Scope string_scope.

Lemma replace_char_removes old new s :
  old <> new -> has_char old (replace_char old new s) = false.
Proof.
  intros H. induction s as [|c s IH]; [reflexivity|].
  simpl. rewrite IH, orb_false_r.
  destruct (Ascii.eqb_spec c old) as [->|Hc].
  - now apply Ascii.eqb_neq, not_eq_sym.
  - now apply Ascii.eqb_neq.
Qed.

Lemma replace_char_keeps_out c old new s :
  c <> new -> has_char c s = false -> has_char c (replace_char old new s) = false.
Proof.
  intros H. induction s as [|d s IH]; [reflexivity|].
  simpl. intros E. apply orb_false_iff in E as [E1 E2].
  rewrite (IH E2), orb_false_r.
  destruct (Ascii.eqb d old); [|exact E1].
  now apply Ascii.eqb_neq, not_eq_sym.
Qed.

Lemma replace_char_same old new s :
  has_char old s = false -> replace_char old new s = s.
Proof.
  induction s as [|d s IH]; [reflexivity|].
  simpl. intros E. apply orb_false_iff in E as [E1 E2].
  now rewrite E1, (IH E2).
Qed.

Lemma replace_char_length old new s :
  String.length (replace_char old new s) = String.length s.
Proof. induction s as [|d s IH]; simpl; [reflexivity | now rewrite IH]. Qed.

Lemma replace_char_app old new a b :
  replace_char old new (a ++ b) = replace_char old new a ++ replace_char old new b.
Proof.
  induction a as [|d a IH]; [reflexivity|].
  rewrite append_cons. simpl. now rewrite IH.
Qed.

Lemma safe_blob_name_app a b :
  safe_blob_name (a ++ b) = safe_blob_name a ++ safe_blob_name b.
Proof. unfold safe_blob_name. now rewrite !replace_char_app. Qed.

Lemma safe_blob_name_clean s :
  has_char "/" (safe_blob_name s) = false
  /\ has_char "\" (safe_blob_name s) = false
  /\ has_char "." (safe_blob_name s) = false.
Proof.
  unfold safe_blob_name. repeat split.
  - do 2 (apply replace_char_keeps_out; [discriminate|]).
    now apply replace_char_removes.
  - apply replace_char_keeps_out; [discriminate|].
    now apply replace_char_removes.
  - now apply replace_char_removes.
Qed.

(** X14. The stem of the files written for a blob has no slash, backslash
    or dot and is as long as the blob name; cleaning a clean name changes
    nothing; and the cleaning forgets which of ["/"], ["\"], ["."] and ["_"]
    stood at a position, so blob names that differ only there get the same
    files. *)
Theorem safe_blob_name_facts s :
  (has_char "/" (safe_blob_name s) = false
   /\ has_char "\" (safe_blob_name s) = false
   /\ has_char "." (safe_blob_name s) = false)
  /\ String.length (safe_blob_name s) = String.length s
  /\ safe_blob_name (safe_blob_name s) = safe_blob_name s
  /\ forall a b,
       safe_blob_name (a ++ "/" ++ b) = safe_blob_name (a ++ "_" ++ b)
       /\ safe_blob_name (a ++ "\" ++ b) = safe_blob_name (a ++ "_" ++ b)
       /\ safe_blob_name (a ++ "." ++ b) = safe_blob_name (a ++ "_" ++ b).
Proof.
  split; [apply safe_blob_name_clean|]. split.
  { unfold safe_blob_name. now rewrite !replace_char_length. }
  split.
  { destruct (safe_blob_name_clean s) as (H1 & H2 & H3).
    unfold safe_blob_name at 1.
    now rewrite (replace_char_same "/" "_" _ H1), (replace_char_same "\" "_" _ H2),
      (replace_char_same "." "_" _ H3). }
  intros a b. rewrite !safe_blob_name_app. repeat split; reflexivity.
Qed.

(** X15. [safe_filename] returns a name of the same length without slash,
    backslash or colon, and leaves a name without them unchanged. *)
Theorem safe_filename_facts s :
  (has_char "/" (safe_filename s) = false
   /\ has_char "\" (safe_filename s) = false
   /\ has_char ":" (safe_filename s) = false)
  /\ String.length (safe_filename s) = String.length s
  /\ (has_char "/" s = false -> has_char "\" s = false -> has_char ":" s = false ->
      safe_filename s = s).
Proof.
  unfold safe_filename. split; [repeat split|split].
  - do 2 (apply replace_char_keeps_out; [discriminate|]).
    now apply replace_char_removes.
  - apply replace_char_keeps_out; [discriminate|].
    now apply replace_char_removes.
  - now apply replace_char_removes.
  - now rewrite !replace_char_length.
  - intros H1 H2 H3.
    now rewrite (replace_char_same "/" "_" _ H1), (replace_char_same "\" "_" _ H2),
      (replace_char_same ":" "_" _ H3).
Qed.

End FileNames.

(** ** The run summary of the drivers *)

(** What happens to one receipt inside the [try] of the driver loop: the
    image cannot be fetched, the workflow returns its outputs, or an
    exception is raised on the way. *)
Inductive Attempt :=
  | NoImage
  | Outputs (outputs : list string)
  | Raised (error : string).

(** One element of [results_summary["results"]] (the durations left out). *)
Record ResultEntry := {
  entry_blob_name : string;
  status : string;
  output : option string;
  error : option string;
  reason : option string
}.

(** [results_summary] (the run id and the timing left out). *)
Record Summary := {
  total : nat;
  successful : nat;
  failed : nat;
  results : list ResultEntry
}.

(** [os.environ.get("TEST_MODE", "true").lower() == "true"] *)
Definition test_mode (env_TEST_MODE : option string) : bool :=
  String.eqb (Py.lower (default "true" env_TEST_MODE)) "true".

(** [blob_names[:3] if test_mode else blob_names] *)
Definition receipts_to_process (env_TEST_MODE : option string) (blob_names : list string)
  : list string :=
  if test_mode env_TEST_MODE then firstn 3 blob_names else blob_names.

(** The body of the loop for one receipt. *)
Definition record_attempt (summary : Summary) (blob_name : string) (a : Attempt) : Summary :=
  match a with
  | NoImage =>
      {| total := total summary;
         successful := successful summary;
         failed := failed summary + 1;
         results := results summary
                    ++ [ {| entry_blob_name := blob_name; status := "skipped";
                            output := None; error := None;
                            reason := Some "Empty or inaccessible blob" |} ] |}
  | Outputs (first_output :: _) =>
      {| total := total summary;
         successful := successful summary + 1;
         failed := failed summary;
         results := results summary
                    ++ [ {| entry_blob_name := blob_name; status := "success";
                            output := Some first_output; error := None;
                            reason := None |} ] |}
  | Outputs [] =>
      {| total := total summary;
         successful := successful summary;
         failed := failed summary + 1;
         results := results summary
                    ++ [ {| entry_blob_name := blob_name; status := "no_output";
                            output := None; error := None; reason := None |} ] |}
  | Raised e =>
      {| total := total summary;
         successful := successful summary;
         failed := failed summary + 1;
         results := results summary
                    ++ [ {| entry_blob_name := blob_name; status := "error";
                            output := None; error := Some e; reason := None |} ] |}
  end.

(** The loop over the receipts, each paired with what happens to it. *)
Definition run_loop (summary : Summary) (receipts : list (string * Attempt)) : Summary :=
  List.fold_left (fun s ra => record_attempt s (fst ra) (snd ra)) receipts summary.

(** The summary after the loop, given what happens to the i-th receipt. *)
Definition summarize (env_TEST_MODE : option string) (blob_names : list string)
    (attempt : nat -> string -> Attempt) : Summary :=
  let receipts := receipts_to_process env_TEST_MODE blob_names in
  let initial := {| total := List.length receipts; successful := 0; failed := 0;
                    results := [] |} in
  run_loop initial
    (List.map (fun ib => (snd ib, attempt (fst ib) (snd ib)))
       (List.combine (List.seq 1 (List.length receipts)) receipts)).








Module Run.
(** Four receipts listed; what happens to each taken up. *)
Definition attempt (i : nat) (blob : string) : Attempt :=
  match i with
  | 1%nat => Outputs ["Receipt processing complete."]
  | 2%nat => NoImage
  | _ => Raised "timeout"
  end.
End Run.


(** Test mode takes the first three of four receipts. *)
Example run_summary_example :
  let s := summarize (Some "True") ["r1.jpg"; "r2.jpg"; "r3.jpg"; "r4.jpg"] Run.attempt in
  (total s, successful s, failed s, List.map status (results s))
  = (3%nat, 1%nat, 2%nat, ["success"; "skipped"; "error"]).
Proof. vm_compute. reflexivity. Qed.

(** ** The content type sent with an image *)

(** [os.path.splitext] as [posixpath] defines it ([genericpath._splitext]
    with separator ["/"] and extension separator ["."]). *)
Module OsPath.

(** [s.rfind(c)] for a character; [None] stands for [-1]. *)
Fixpoint rfind (c : ascii) (s : string) : option nat :=
  match s with
  | EmptyString => None
  | String d s' =>
      match rfind c s' with
      | Some i => Some (S i)
      | None => if Ascii.eqb d c then Some 0%nat else None
      end
  end.

Definition index (o : option nat) : Z :=
  match o with
  | Some i => Z.of_nat i
  | None => (-1)%Z
  end.

(** [s[n:]] *)
Fixpoint drop (n : nat) (s : string) : string :=
  match n, s with
  | S k, String _ s' => drop k s'
  | _, _ => s
  end.

(** The [while] loop over [p[filenameIndex:dotIndex]] finds no character
    other than the dot. *)
Fixpoint all_dots (s : string) : bool :=
  match s with
  | EmptyString => true
  | String c s' => Ascii.eqb c "." && all_dots s'
  end.

Definition splitext (p : string) : string * string :=
  let sepIndex := index (rfind "/" p) in
  let dotIndex := index (rfind "." p) in
  if (sepIndex <? dotIndex)%Z
  then
    let filenameIndex := Z.to_nat (sepIndex + 1) in
    if all_dots (Str.slice_to (Z.to_nat dotIndex - filenameIndex) (drop filenameIndex p))
    then (p, EmptyString)
    else (Str.slice_to (Z.to_nat dotIndex) p, drop (Z.to_nat dotIndex) p)
  else (p, EmptyString).

End OsPath.

(** [resolve_content_type] of the utilities. *)
Definition resolve_content_type (blob_name : string) : string :=
  let extension := snd (OsPath.splitext (Py.lower blob_name)) in
  if String.eqb extension ".png" then "image/png"
  else if String.eqb extension ".pdf" then "application/pdf"
  else "image/jpeg".

(** The copy inside [document_intelligence_processor] and
    [direct_extraction_processor]: a default overwritten by [if]/[elif]. *)
Definition content_type_of_processor (blob_name : string) : string :=
  let file_ext := snd (OsPath.splitext (Py.lower blob_name)) in
  let content_type := "image/jpeg" in
  if String.eqb file_ext ".png" then "image/png"
  else if String.eqb file_ext ".pdf" then "application/pdf"
  else content_type.

(** The copy inside [mistral_processor]: tests [file_ext in [".png"]]. *)
Definition content_type_of_mistral (blob_name : string) : string :=
  let file_ext := snd (OsPath.splitext (Py.lower blob_name)) in
  let content_type := "image/jpeg" in
  if existsb (String.eqb file_ext) [".png"] then "image/png"
  else if existsb (String.eqb file_ext) [".pdf"] then "application/pdf"
  else content_type.

Section ContentType.

Local Open Scope string_scope.

Lemma lower_app a b : Py.lower (a ++ b) = Py.lower a ++ Py.lower b.
Proof.
  induction a as [|c a IH]; [reflexivity|].
  rewrite append_cons. simpl. now rewrite IH.
Qed.

Lemma lower_char_dot c : Ascii.eqb (Py.lower_char c) "." = Ascii.eqb c ".".
Proof. destruct c as [[] [] [] [] [] [] [] []]; reflexivity. Qed.

Lemma lower_char_slash c : Ascii.eqb (Py.lower_char c) "/" = Ascii.eqb c "/".
Proof. destruct c as [[] [] [] [] [] [] [] []]; reflexivity. Qed.

Lemma lower_all_dots s : OsPath.all_dots (Py.lower s) = OsPath.all_dots s.
Proof.
  induction s as [|c s IH]; [reflexivity|]. simpl. now rewrite lower_char_dot, IH.
Qed.

Lemma lower_has_slash s : has_char "/" (Py.lower s) = has_char "/" s.
Proof.
  induction s as [|c s IH]; [reflexivity|]. simpl. now rewrite lower_char_slash, IH.
Qed.

Lemma rfind_none c s : has_char c s = false -> OsPath.rfind c s = None.
Proof.
  induction s as [|d s IH]; [reflexivity|]. simpl. intros H.
  apply orb_false_iff in H as [H1 H2]. now rewrite (IH H2), H1.
Qed.

Lemma rfind_app_absent c a t :
  has_char c t = false -> OsPath.rfind c (a ++ t) = OsPath.rfind c a.
Proof.
  intros H. induction a as [|d a IH].
  - rewrite append_nil_l. now apply rfind_none.
  - rewrite append_cons. simpl. now rewrite IH.
Qed.

Lemma rfind_app_last c a t :
  has_char c t = false ->
  OsPath.rfind c (a ++ String c t) = Some (String.length a).
Proof.
  intros H. induction a as [|d a IH].
  - rewrite append_nil_l. simpl. now rewrite (rfind_none c t H), Ascii.eqb_refl.
  - rewrite append_cons. simpl. now rewrite IH.
Qed.

Lemma drop_app a b : OsPath.drop (String.length a) (a ++ b) = b.
Proof. induction a as [|c a IH]; [now destruct b | exact IH]. Qed.

Lemma slice_to_app a b : Str.slice_to (String.length a) (a ++ b) = a.
Proof.
  induction a as [|c a IH]; [now destruct b|].
  rewrite append_cons. simpl. now rewrite IH.
Qed.

Lemma length_app a b : String.length (a ++ b) = (String.length a + String.length b)%nat.
Proof. induction a as [|c a IH]; [reflexivity|]. rewrite append_cons. simpl. now rewrite IH. Qed.

(** [splitext] on a lower-cased path [dir ++ base ++ "." ++ e]. *)
Lemma splitext_parts dir base e :
  (dir = "" \/ exists d, dir = d ++ "/") ->
  has_char "/" base = false ->
  has_char "/" e = false ->
  has_char "." e = false ->
  snd (OsPath.splitext (dir ++ base ++ String "." e))
  = if OsPath.all_dots base then "" else String "." e.
Proof.
  intros Hd Hb He1 He2. unfold OsPath.splitext.
  assert (Dot : OsPath.rfind "." (dir ++ base ++ String "." e)
                = Some (String.length (dir ++ base))).
  { rewrite <- append_assoc. now apply rfind_app_last. }
  assert (NoSep : has_char "/" (base ++ String "." e) = false).
  { clear -Hb He1. induction base as [|c b IH].
    - rewrite append_nil_l. simpl. exact He1.
    - rewrite append_cons. simpl in *. apply orb_false_iff in Hb as [H1 H2].
      now rewrite H1, IH. }
  assert (Sep : OsPath.rfind "/" (dir ++ base ++ String "." e) = OsPath.rfind "/" dir)
    by now apply rfind_app_absent.
  assert (Ix : OsPath.index (OsPath.rfind "/" dir)
               = (Z.of_nat (String.length dir) - 1)%Z).
  { destruct Hd as [->|[d ->]]; [reflexivity|].
    rewrite (rfind_app_last "/" d "" eq_refl), length_app. simpl. lia. }
  rewrite Dot, Sep, Ix. cbn [OsPath.index]. rewrite length_app.
  replace (Z.of_nat (String.length dir) - 1
           <? Z.of_nat (String.length dir + String.length base))%Z
    with true by (symmetry; apply Z.ltb_lt; lia).
  replace (Z.to_nat (Z.of_nat (String.length dir) - 1 + 1))
    with (String.length dir) by lia.
  rewrite Nat2Z.id.
  replace (String.length dir + String.length base - String.length dir)%nat
    with (String.length base) by lia.
  rewrite drop_app, slice_to_app.
  destruct (OsPath.all_dots base); [reflexivity|].
  cbn [snd]. rewrite <- length_app, <- append_assoc. apply drop_app.
Qed.

Lemma lower_dir dir :
  (dir = "" \/ exists d, dir = d ++ "/") ->
  Py.lower dir = "" \/ exists d, Py.lower dir = d ++ "/".
Proof.
  intros [->|[d ->]]; [now left|]. right. exists (Py.lower d). now rewrite lower_app.
Qed.

(** X17. The content type goes by the extension of the last path component,
    letter case ignored: for a blob name [dir ++ base ++ ext] whose [base]
    has no slash and is not made of dots only, an [ext] that lower-cases to
    ".png" gives "image/png" and one that lower-cases to ".pdf" gives
    "application/pdf"; when [base] is empty or all dots (a file called
    ".png") the name has no extension and the type is "image/jpeg".  The
    copies inside the three processors always agree with the utility. *)
Theorem content_type_by_extension dir base ext :
  (dir = "" \/ exists d, dir = d ++ "/") ->
  has_char "/" base = false ->
  (OsPath.all_dots base = false ->
     (Py.lower ext = ".png" -> resolve_content_type (dir ++ base ++ ext) = "image/png")
     /\ (Py.lower ext = ".pdf" ->
         resolve_content_type (dir ++ base ++ ext) = "application/pdf"))
  /\ (OsPath.all_dots base = true ->
      Py.lower ext = ".png" \/ Py.lower ext = ".pdf" ->
      resolve_content_type (dir ++ base ++ ext) = "image/jpeg")
  /\ (forall blob_name,
        content_type_of_processor blob_name = resolve_content_type blob_name
        /\ content_type_of_mistral blob_name = resolve_content_type blob_name).
Proof.
  intros Hd Hb.
  assert (S : forall e, has_char "/" e = false -> has_char "." e = false ->
            Py.lower ext = String "." e ->
            snd (OsPath.splitext (Py.lower (dir ++ base ++ ext)))
            = if OsPath.all_dots base then "" else String "." e).
  { intros e H1 H2 He. rewrite !lower_app, He, <- (lower_all_dots base).
    apply splitext_parts; auto using lower_dir. now rewrite lower_has_slash. }
  split; [|split].
  - intros Hn. unfold resolve_content_type. split; intros He.
    + rewrite (S "png" eq_refl eq_refl He), Hn. reflexivity.
    + rewrite (S "pdf" eq_refl eq_refl He), Hn. reflexivity.
  - intros Hy [He|He]; unfold resolve_content_type.
    + rewrite (S "png" eq_refl eq_refl He), Hy. reflexivity.
    + rewrite (S "pdf" eq_refl eq_refl He), Hy. reflexivity.
  - intros blob_name.
    unfold content_type_of_processor, content_type_of_mistral, resolve_content_type.
    simpl existsb. rewrite !orb_false_r. split; reflexivity.
Qed.

End ContentType.

Lemma content_type_by_extension_witness :
  (OsPath.all_dots "Receipt.01" = false ->
     (Py.lower ".PNG" = ".png" ->
        resolve_content_type ("receipts/2025/" ++ "Receipt.01" ++ ".PNG") = "image/png")
     /\ (Py.lower ".PNG" = ".pdf" ->
         resolve_content_type ("receipts/2025/" ++ "Receipt.01" ++ ".PNG")
         = "application/pdf"))
  /\ (OsPath.all_dots "Receipt.01" = true ->
      Py.lower ".PNG" = ".png" \/ Py.lower ".PNG" = ".pdf" ->
      resolve_content_type ("receipts/2025/" ++ "Receipt.01" ++ ".PNG") = "image/jpeg")
  /\ (forall blob_name,
        content_type_of_processor blob_name = resolve_content_type blob_name
        /\ content_type_of_mistral blob_name = resolve_content_type blob_name).
Proof.
  apply (content_type_by_extension "receipts/2025/" "Receipt.01" ".PNG").
  - right. now exists "receipts/2025".
  - reflexivity.
Defined.

Example content_type_examples :
  (resolve_content_type "receipts/r1.PNG", resolve_content_type "scan.pdf",
   resolve_content_type ".png", resolve_content_type "a.png/r1",
   resolve_content_type "r1.jpeg", resolve_content_type "archive.tar.png")
  = ("image/png", "application/pdf", "image/jpeg", "image/jpeg", "image/jpeg",
     "image/png").
Proof. vm_compute. reflexivity. Qed.
